(** * Barrier method for linear programs (lab14/barrier-method.ipynb)

    A shallow embedding of the three functions of the notebook,
    [backtracking_line_search], [newtons_method] and [barrier_method],
    and the properties of them that the specification states.

    Numbers.  The notebook computes with numpy's 64-bit floats.  The
    functions are embedded twice.  In the first embedding a scalar is an
    exact rational ([Q]): it serves the statements that do not depend on
    rounding (which formulas are computed, the shape of the traces, what
    is kept feasible, what a call leaves untouched).  In the second
    (names ending in [_b64]) a scalar is a binary64 float with the
    operations of the processor: it serves the statements about the
    tests and the iterations as the notebook computes them.  Two numpy
    routines stay abstract in both, as the interfaces [NumLib] and
    [NumLib64]: the natural logarithm [np.log] and the dense solver
    [np.linalg.solve].

    Arrays.  A one-dimensional array is a list of scalars, a
    two-dimensional array the list of its rows.  The operations on them
    follow numpy on operands of matching shapes; on other operands (where
    numpy broadcasts or raises) they truncate to the shorter operand, and
    the theorems that depend on shapes assume them.

    Loops.  Every [while] loop of the notebook is a [Fixpoint] on a fuel
    argument; [Timeout] is the result of a loop that has not finished when
    its fuel is spent.

    Mutation.  The functions are embedded twice: on values, where an
    array is its contents, and over a store of arrays, where [.copy()]
    allocates and [+=] overwrites; the second embedding is proved to
    compute the values of the first. *)

From Stdlib Require Import List Bool Arith ZArith QArith Qpower Lia Lra Lqa.
From Stdlib Require Import Setoid Morphisms Permutation Qminmax.
From Stdlib Require Import PrimFloat.
From Stdlib Require FloatOps SpecFloat Uint63.
Import ListNotations.

Set Implicit Arguments.
Set Warnings "-inexact-float".
Open Scope Q_scope.

(** ** Results of fallible code *)

(** The exceptions the three functions can raise. *)
Inductive exn : Type :=
| LinAlgError        (* np.linalg.solve on a singular system *)
| IndexError         (* x[-1] on an empty array *)
| ZeroDivisionError. (* m / t with t = 0 *)

Inductive result (A : Type) : Type :=
| Ok (a : A)
| Raise (e : exn)
| Timeout.

Arguments Ok {A} a.
Arguments Raise {A} e.
Arguments Timeout {A}.

Definition bind {A B : Type} (r : result A) (k : A -> result B) : result B :=
  match r with
  | Ok a => k a
  | Raise e => Raise e
  | Timeout => Timeout
  end.

Notation "x <- r ;; k" := (bind r (fun x => k))
  (at level 61, r at next level, right associativity).

(** ** Scalars, vectors and matrices *)

Definition vec : Type := list Q.
Definition matrix : Type := list vec.

Definition Qlt_bool (x y : Q) : bool := negb (Qle_bool y x).

Fixpoint map2 {A B C : Type} (g : A -> B -> C) (u : list A) (v : list B) : list C :=
  match u, v with
  | a :: u', b :: v' => g a b :: map2 g u' v'
  | _, _ => []
  end.

Definition vadd (u v : vec) : vec := map2 Qplus u v.
Definition vsub (u v : vec) : vec := map2 Qminus u v.
Definition vdiv (u v : vec) : vec := map2 Qdiv u v.
Definition vscale (a : Q) (v : vec) : vec := map (Qmult a) v.
Definition vneg (v : vec) : vec := map Qopp v.
(** [np.sum] of a one-dimensional array. *)
Definition vsum (v : vec) : Q := fold_right Qplus 0 v.
(** [u @ v] and [np.dot(u, v)] on one-dimensional arrays. *)
Definition dot (u v : vec) : Q := vsum (map2 Qmult u v).
(** [A @ x]. *)
Definition mat_vec (A : matrix) (x : vec) : vec := map (fun r => dot r x) A.

(** [A.shape] is [(nrows A, ncols A)]; an array without rows has no
    columns here. *)
Definition nrows (A : matrix) : nat := length A.
Definition ncols (A : matrix) : nat :=
  match A with
  | [] => O
  | r :: _ => length r
  end.

Definition column (j : nat) (A : matrix) : vec := map (fun r => nth j r 0) A.
(** [A.T]. *)
Definition transpose (A : matrix) : matrix :=
  map (fun j => column j A) (seq 0 (ncols A)).
(** [M @ N] on two-dimensional arrays. *)
Definition mat_mul (M N : matrix) : matrix :=
  map (fun r => map (fun col => dot r col) (transpose N)) M.

(** [x[-1]]. *)
Fixpoint last_coord (x : vec) : option Q :=
  match x with
  | [] => None
  | [a] => Some a
  | _ :: x' => last_coord x'
  end.

(** ** The numpy routines the notebook calls *)

Class NumLib : Type := {
  np_log : Q -> Q;
  (** [np.linalg.solve H g]: [None] stands for the [LinAlgError] numpy
      raises when it finds the system singular. *)
  linalg_solve : matrix -> vec -> option vec
}.

(** ** backtracking_line_search *)

Definition alpha_default : Q := 1 # 10.
Definition beta_default : Q := 8 # 10.

Section LineSearch.
Variable f : vec -> Q.
Variable in_domain_of_f : vec -> bool.
Variable df : vec -> vec.
Variables x dx : vec.
Variables alpha beta : Q.

(** [while not in_domain_of_f(x + t*dx): t *= beta] *)
Fixpoint domain_loop (fuel : nat) (t : Q) : result Q :=
  match fuel with
  | O => Timeout
  | S fuel' =>
      if in_domain_of_f (vadd x (vscale t dx)) then Ok t
      else domain_loop fuel' (t * beta)
  end.

(** [while f(x + t * dx) > f(x) + alpha * t * np.dot(df(x), dx): t *= beta] *)
Fixpoint armijo_loop (fuel : nat) (t : Q) : result Q :=
  match fuel with
  | O => Timeout
  | S fuel' =>
      if Qlt_bool (f x + alpha * t * dot (df x) dx) (f (vadd x (vscale t dx)))
      then armijo_loop fuel' (t * beta)
      else Ok t
  end.

Definition backtracking_line_search (fuel : nat) : result Q :=
  t <- domain_loop fuel 1 ;; armijo_loop fuel t.

(** The same two loops, returning with the step the arguments of the
    calls of [f], in the order the calls are made. *)
Fixpoint armijo_loop_evals (fuel : nat) (t : Q) (evals : list vec)
  : result (Q * list vec) :=
  match fuel with
  | O => Timeout
  | S fuel' =>
      let evals' := evals ++ [vadd x (vscale t dx); x] in
      if Qlt_bool (f x + alpha * t * dot (df x) dx) (f (vadd x (vscale t dx)))
      then armijo_loop_evals fuel' (t * beta) evals'
      else Ok (t, evals')
  end.

Definition backtracking_line_search_evals (fuel : nat) : result (Q * list vec) :=
  t <- domain_loop fuel 1 ;; armijo_loop_evals fuel t [].
End LineSearch.

(** ** newtons_method *)

Definition eps_default : Q := 1 # 10000.

Section Newton.
Context {L : NumLib}.
Variable f : vec -> Q.
Variable in_domain_of_f : vec -> bool.
Variable df : vec -> vec.
Variable ddf : vec -> matrix.
Variable eps : Q.
(** Fuel of each line search. *)
Variable lfuel : nat.

(** The [while True] loop; [steps] is the list built so far. *)
Fixpoint newton_loop (fuel : nat) (x : vec) (steps : list vec)
  : result (vec * list vec) :=
  match fuel with
  | O => Timeout
  | S fuel' =>
      match linalg_solve (ddf x) (df x) with
      | None => Raise LinAlgError
      | Some y =>
          let dx := vneg y in
          let lambda_sq := dot (vneg (df x)) dx in
          if Qle_bool (lambda_sq / 2) eps then Ok (x, steps)
          else
            t <- backtracking_line_search f in_domain_of_f df x dx
                   alpha_default beta_default lfuel ;;
            let x' := vadd x (vscale t dx) in
            newton_loop fuel' x' (steps ++ [x'])
      end
  end.

Definition newtons_method (fuel : nat) (x : vec) : result (vec * list vec) :=
  newton_loop fuel x [x].
End Newton.

(** ** barrier_method *)

Section Barrier.
Context {L : NumLib}.
Variable c : vec.
Variable A : matrix.
Variable b : vec.

(** [b - A @ x] *)
Definition slack (x : vec) : vec := vsub b (mat_vec A x).

(** [f = lambda x: t * c @ x - np.sum(np.log(b - A @ x))] *)
Definition barrier_f (t : Q) (x : vec) : Q :=
  dot (vscale t c) x - vsum (map np_log (slack x)).

(** [in_domain_of_f = lambda x: all(b - A @ x > 0)] *)
Definition barrier_in_domain (x : vec) : bool :=
  forallb (fun s => Qlt_bool 0 s) (slack x).

(** [df = lambda x: t * c + np.sum(A.T / (b - A @ x), axis=1)] *)
Definition barrier_df (t : Q) (x : vec) : vec :=
  vadd (vscale t c)
       (map vsum (map (fun col => vdiv col (slack x)) (transpose A))).

(** [ddf = lambda x: (A.T / (b - A @ x)**2) @ A] *)
Definition barrier_ddf (x : vec) : matrix :=
  mat_mul (map (fun col => vdiv col (map (fun s => s ^ 2) (slack x)))
               (transpose A))
          A.

Variables eps mu : Q.
Variable phase_one : bool.
(** Fuel of each call of [newtons_method] and of each line search. *)
Variables nfuel lfuel : nat.

(** [(phase_one and x[-1]>0) or (not phase_one and m / t >= eps)], with
    [m] the number of rows of [A], from [m, n = A.shape]. *)
Definition loop_condition (x : vec) (t : Q) : result bool :=
  if phase_one then
    match last_coord x with
    | None => Raise IndexError
    | Some s => Ok (Qlt_bool 0 s)
    end
  else if Qeq_bool t 0 then Raise ZeroDivisionError
  else Ok (Qle_bool eps (inject_Z (Z.of_nat (nrows A)) / t)).

Fixpoint barrier_loop (fuel : nat) (x : vec) (steps : list vec)
    (newt_steps : list (list vec)) (t : Q)
  : result (vec * list vec * list (list vec)) :=
  match fuel with
  | O => Timeout
  | S fuel' =>
      go <- loop_condition x t ;;
      if go : bool then
        r <- newtons_method (barrier_f t) barrier_in_domain (barrier_df t)
               barrier_ddf eps_default lfuel nfuel x ;;
        let x' := fst r in
        barrier_loop fuel' x' (steps ++ [x']) (newt_steps ++ [snd r]) (t * mu)
      else Ok (x, steps, newt_steps)
  end.

Definition barrier_method (fuel : nat) (x_0 : vec) (t0 : Q)
  : result (vec * list vec * list (list vec)) :=
  barrier_loop fuel x_0 [x_0] [] t0.
End Barrier.

(** ** The formulas of the specification

    The barrier objective, its domain, gradient and Hessian as the
    specification writes them: sums over the rows [A_i] of [A]. *)

Section BarrierSpec.
Context {L : NumLib}.
Variable c : vec.
Variable A : matrix.
Variable b : vec.

(** [b_i - A_i·x], row by row. *)
Definition row_slacks (x : vec) : vec :=
  map2 (fun bi Ai => bi - dot Ai x) b A.

(** [b - A x > 0] entrywise. *)
Definition strictly_feasible (x : vec) : Prop :=
  Forall (fun s => 0 < s) (row_slacks x).







End BarrierSpec.

(** Equality of arrays up to the equality of rationals. *)
Definition veq (u v : vec) : Prop := Forall2 Qeq u v.
Definition meq (M N : matrix) : Prop := Forall2 veq M N.

(** [H] is positive definite: [v·(H v) > 0] for every nonzero [v]. *)
Definition positive_definite (H : matrix) : Prop :=
  forall v : vec,
    length v = length H -> ~ veq v (repeat 0 (length H)) ->
    0 < dot v (mat_vec H v).

(** [H] is singular: [H v = 0] for some nonzero [v]. *)
Definition singular (H : matrix) : Prop :=
  exists v : vec,
    length v = length H /\ ~ veq v (repeat 0 (length H)) /\
    veq (mat_vec H v) (repeat 0 (length H)).

(** A solver of the exact embedding: a returned vector solves the system
    and has the length of the right-hand side. *)
Class NumLibSpec (L : NumLib) : Prop := {
  linalg_solve_sound :
    forall H g y, linalg_solve H g = Some y -> veq (mat_vec H y) g;
  linalg_solve_length :
    forall H g y, linalg_solve H g = Some y -> length y = length g
}.

(** ** The same code over a store of arrays

    numpy arrays are mutable objects and [x += t * dx] updates one in
    place.  To state what a call leaves untouched, the three functions
    are embedded a second time over a store: an array variable holds a
    location, [.copy()] allocates, [+=] overwrites.  The arrays that
    expressions such as [x + t*dx] and [b - A @ x] build are temporaries
    no variable keeps; they stay values. *)

Inductive ndarray : Type :=
| Arr1 (v : vec)
| Arr2 (M : matrix).

Definition loc : Type := nat.
Definition heap : Type := list ndarray.

Definition get1 (h : heap) (l : loc) : vec :=
  match nth_error h l with
  | Some (Arr1 v) => v
  | _ => []
  end.

Definition get2 (h : heap) (l : loc) : matrix :=
  match nth_error h l with
  | Some (Arr2 M) => M
  | _ => []
  end.

Fixpoint update (l : loc) (a : ndarray) (h : heap) : heap :=
  match h, l with
  | [], _ => []
  | _ :: h', O => a :: h'
  | a' :: h', S l' => a' :: update l' a h'
  end.

(** [x.copy()]: a new object with the contents of [x]. *)
Definition np_copy (l : loc) (h : heap) : loc * heap :=
  (length h, h ++ [Arr1 (get1 h l)]).

(** [x += v]: the object [x] refers to is overwritten. *)
Definition iadd (l : loc) (v : vec) (h : heap) : heap :=
  update l (Arr1 (vadd (get1 h l) v)) h.

Section NewtonHeap.
Context {L : NumLib}.
(** The closures read the arrays they capture when they are called. *)
Variable f : heap -> vec -> Q.
Variable in_domain_of_f : heap -> vec -> bool.
Variable df : heap -> vec -> vec.
Variable ddf : heap -> vec -> matrix.
Variable eps : Q.
Variable lfuel : nat.

Fixpoint newton_loop_h (fuel : nat) (x : loc) (steps : list loc) (h : heap)
  : result (loc * list loc * heap) :=
  match fuel with
  | O => Timeout
  | S fuel' =>
      let xv := get1 h x in
      match linalg_solve (ddf h xv) (df h xv) with
      | None => Raise LinAlgError
      | Some y =>
          let dx := vneg y in
          let lambda_sq := dot (vneg (df h xv)) dx in
          if Qle_bool (lambda_sq / 2) eps then Ok (x, steps, h)
          else
            t <- backtracking_line_search (f h) (in_domain_of_f h) (df h)
                   xv dx alpha_default beta_default lfuel ;;
            (* x += t * dx *)
            let h1 := iadd x (vscale t dx) h in
            (* steps.append(x.copy()) *)
            let (s, h2) := np_copy x h1 in
            newton_loop_h fuel' x (steps ++ [s]) h2
      end
  end.

Definition newtons_method_h (fuel : nat) (x : loc) (h : heap)
  : result (loc * list loc * heap) :=
  (* steps = [x.copy()] *)
  let (s, h1) := np_copy x h in
  newton_loop_h fuel x [s] h1.
End NewtonHeap.

Section BarrierHeap.
Context {L : NumLib}.
(** The caller's arrays. *)
Variables c A b x_0 : loc.
Variables eps mu : Q.
Variable phase_one : bool.
Variables nfuel lfuel : nat.

Definition loop_condition_h (m : nat) (x : loc) (t : Q) (h : heap)
  : result bool :=
  if phase_one then
    match last_coord (get1 h x) with
    | None => Raise IndexError
    | Some s => Ok (Qlt_bool 0 s)
    end
  else if Qeq_bool t 0 then Raise ZeroDivisionError
  else Ok (Qle_bool eps (inject_Z (Z.of_nat m) / t)).

Fixpoint barrier_loop_h (fuel : nat) (m : nat) (x : loc) (steps : list loc)
    (newt_steps : list (list loc)) (t : Q) (h : heap)
  : result (loc * list loc * list (list loc) * heap) :=
  match fuel with
  | O => Timeout
  | S fuel' =>
      go <- loop_condition_h m x t h ;;
      if go : bool then
        r <- newtons_method_h
               (fun h => barrier_f (get1 h c) (get2 h A) (get1 h b) t)
               (fun h => barrier_in_domain (get2 h A) (get1 h b))
               (fun h => barrier_df (get1 h c) (get2 h A) (get1 h b) t)
               (fun h => barrier_ddf (get2 h A) (get1 h b))
               eps_default lfuel nfuel x h ;;
        let '(x', newt_steps_here, h1) := r in
        (* steps.append(x.copy()) *)
        let (s, h2) := np_copy x' h1 in
        barrier_loop_h fuel' m x' (steps ++ [s])
          (newt_steps ++ [newt_steps_here]) (t * mu) h2
      else Ok (x, steps, newt_steps, h)
  end.

Definition barrier_method_h (fuel : nat) (t0 : Q) (h : heap)
  : result (loc * list loc * list (list loc) * heap) :=
  (* m, n = A.shape *)
  let m := nrows (get2 h A) in
  (* x = x_0.copy() *)
  let (x, h1) := np_copy x_0 h in
  (* steps = [x.copy()] *)
  let (s, h2) := np_copy x h1 in
  barrier_loop_h fuel m x [s] [] t0 h2.
End BarrierHeap.

(** [frame x h h']: from [h] to [h'] arrays were allocated and the array
    at [x] was overwritten; every other array of [h] is as it was. *)
Definition frame (x : loc) (h h' : heap) : Prop :=
  (length h <= length h')%nat /\
  forall l, (l < length h)%nat -> l <> x -> nth_error h' l = nth_error h l.

(** Locations below the size of the store, other than [x]: what they hold
    is the same after a [frame x]. *)
Definition settled (x : loc) (h : heap) (l : loc) : Prop :=
  (l < length h)%nat /\ l <> x.

(** The values the result of [newtons_method_h] refers to. *)
Definition read_newton (r : result (loc * list loc * heap))
  : result (vec * list vec) :=
  match r with
  | Ok (x, steps, h) => Ok (get1 h x, map (get1 h) steps)
  | Raise e => Raise e
  | Timeout => Timeout
  end.

(** The values a result over the store refers to. *)
Definition read_result (r : result (loc * list loc * list (list loc) * heap))
  : result (vec * list vec * list (list vec)) :=
  match r with
  | Ok (x, steps, newt_steps, h) =>
      Ok (get1 h x, map (get1 h) steps, map (map (get1 h)) newt_steps)
  | Raise e => Raise e
  | Timeout => Timeout
  end.

(** ** An instance to run examples

    [solve_small] solves systems of one and two unknowns exactly (Cramer's
    rule) and reports every other system as singular; [log_pade] is the
    (1,1) Padé approximant of the logarithm at 1.  They only serve to
    evaluate the functions on concrete inputs: no theorem depends on
    them. *)

Definition solve_small (H : matrix) (g : vec) : option vec :=
  match H, g with
  | [[a]], [g1] => if Qeq_bool a 0 then None else Some [g1 / a]
  | [[a; b]; [c; d]], [g1; g2] =>
      let det := a * d - b * c in
      if Qeq_bool det 0 then None
      else Some [(d * g1 - b * g2) / det; (a * g2 - c * g1) / det]
  | _, _ => None
  end.

Definition log_pade (q : Q) : Q := 2 * (q - 1) / (q + 1).

Definition small_lib : NumLib :=
  {| np_log := log_pade; linalg_solve := solve_small |}.

(** The inputs of the examples: the interval [-1 <= x <= 1] with the
    objective [x], and the half-line [-1 <= s] with the objective [s]. *)
Definition interval_c : vec := [1].
Definition interval_A : matrix := [[1]; [-1]].
Definition interval_b : vec := [1; 1].
Definition halfline_c : vec := [1].
Definition halfline_A : matrix := [[-1]].
Definition halfline_b : vec := [1].

(** The polygon of the notebook, with the vertices (0,0), (3,0),
    (3.2,0.2), (2/3,2+2/3) and (-6,2/3): the rows [[-dy, dx]] and the
    right-hand sides [dx*y1 - dy*x1] of its edges, and the starting point
    of the notebook's call. *)
Definition polygon_A : matrix :=
  [[-2; 20 # 3]; [37 # 15; 38 # 15]; [1 # 5; -1 # 5]; [0; -3]; [-2 # 3; -6]].
Definition polygon_b : vec := [148 # 9; 42 # 5; 3 # 5; 0; 0].
Definition polygon_c : vec := [0; -1].
Definition polygon_x_0 : vec := [19 # 10; 1 # 10].

(** A store that holds the arrays of the interval example and a starting
    point, at the locations 0, 1, 2 and 3. *)
Definition interval_store : heap :=
  [Arr1 interval_c; Arr2 interval_A; Arr1 interval_b; Arr1 [0]].

(** ** The stages of a run

    [barrier_stages k x t xs ns x']: started with the iterate [x] and the
    parameter [t], the loop of [barrier_method] passes its test [k] times,
    so performs [k] stages, whose centering calls return the points [xs]
    with the inner traces [ns], and then fails its test at [x']. *)

Section Stages.
Context {L : NumLib}.
Variable c : vec.
Variable A : matrix.
Variable b : vec.
Variables eps mu : Q.
Variable phase_one : bool.
Variables nfuel lfuel : nat.

Inductive barrier_stages
  : nat -> vec -> Q -> list vec -> list (list vec) -> vec -> Prop :=
| stages_stop (x : vec) (t : Q) :
    loop_condition A eps phase_one x t = Ok false ->
    barrier_stages 0 x t [] [] x
| stages_step (k : nat) (x : vec) (t : Q) (x1 : vec) (n1 : list vec)
    (xs : list vec) (ns : list (list vec)) (x' : vec) :
    loop_condition A eps phase_one x t = Ok true ->
    newtons_method (barrier_f c A b t) (barrier_in_domain A b)
      (barrier_df c A b t) (barrier_ddf A b) eps_default lfuel nfuel x
    = Ok (x1, n1) ->
    barrier_stages k x1 (t * mu) xs ns x' ->
    barrier_stages (S k) x t (x1 :: xs) (n1 :: ns) x'.

(** The first [k] centering calls of a run from [x] and [t] return. *)
Fixpoint centering_returns (k : nat) (x : vec) (t : Q) : Prop :=
  match k with
  | O => True
  | S k' =>
      match newtons_method (barrier_f c A b t) (barrier_in_domain A b)
              (barrier_df c A b t) (barrier_ddf A b) eps_default lfuel
              nfuel x with
      | Ok r => centering_returns k' (fst r) (t * mu)
      | _ => False
      end
  end.
End Stages.

(** ** The cells of the notebook that build problem data *)

(** *** The polygon

    The cell that turns the vertices of a polygon into the rows of [A]
    and the entries of [b], as a function of the list [vertices]:
<<
    vertices = vertices[::-1]
    edges = zip(vertices, vertices[1:] + [vertices[0]])
    for (x1, y1), (x2, y2) in edges:
        dx = x2 - x1
        dy = y2 - y1
        A[i] = [-dy, dx]
        b[i] = dx*y1 - dy*x1
>> *)

Definition point2 : Type := (Q * Q)%type.

(** [zip(vertices, vertices[1:] + [vertices[0]])] *)
Definition polygon_edges (vertices : list point2)
  : result (list (point2 * point2)) :=
  match vertices with
  | [] => Raise IndexError
  | v0 :: rest => Ok (combine vertices (rest ++ [v0]))
  end.

(** The body of the loop: the row of [A] and the entry of [b] of an edge. *)
Definition edge_row (e : point2 * point2) : vec :=
  let '((x1, y1), (x2, y2)) := e in
  let dx := x2 - x1 in
  let dy := y2 - y1 in
  [- dy; dx].

Definition edge_rhs (e : point2 * point2) : Q :=
  let '((x1, y1), (x2, y2)) := e in
  let dx := x2 - x1 in
  let dy := y2 - y1 in
  dx * y1 - dy * x1.

Definition polygon_constraints (vertices : list point2)
  : result (matrix * vec) :=
  edges <- polygon_edges (rev vertices) ;;
  Ok (map edge_row edges, map edge_rhs edges).

(** The vertices of the notebook. *)
Definition notebook_vertices : list point2 :=
  [(0, 0); (3, 0); (32 # 10, 2 # 10); (2 / 3, 2 + 2 / 3); (-6, 2 / 3)].



(** *** The random instance

    The cell that draws a linear program, as a function of the arrays
    the four calls of [np.random.rand] return ([U] for [v], [R] for [A],
    [r] for [b], [Uc] for [c]):
<<
    v = np.random.rand(n)*10
    A = np.random.rand(m//2,n) - 0.5
    A = np.append(A, -A, axis=0)
    b = np.maximum(A@v,-A@v) + np.random.rand(m) + 0.1
    c = np.random.rand(n) - 0.5
>> *)

Definition random_v (U : vec) : vec := map (fun u => u * 10) U.

Definition random_A (R : matrix) : matrix :=
  let A := map (map (fun u => u - (1 # 2))) R in
  A ++ map vneg A.

Definition random_b (A : matrix) (v r : vec) : vec :=
  map (fun s => s + (1 # 10))
      (vadd (map2 Qmax (mat_vec A v) (mat_vec (map vneg A) v)) r).

Definition random_c (Uc : vec) : vec := map (fun u => u - (1 # 2)) Uc.

(** ** plot_iterations

    The calls of matplotlib are recorded in the order they are made. *)

Definition color : Type := (Q * Q * Q)%type.

Inductive plot_call : Type :=
| Fill (xs ys : list Q)                      (* plt.fill(xs, ys, ...) *)
| Plot (x y : Q) (marker : bool) (c : color). (* plt.plot(x, y, 'o' or '.', color=c);
                                                 [marker] is true for 'o' *)

(** [x[0], x[1]] *)
Definition coords2 (x : vec) : result (Q * Q) :=
  match x with
  | x0 :: x1 :: _ => Ok (x0, x1)
  | _ => Raise IndexError
  end.

(** [if len(steps) > 0: plt.plot(steps[0][0], steps[0][1], 'o', color=c)] *)
Definition plot_first (steps : list vec) (c : color) : result (list plot_call) :=
  match steps with
  | [] => Ok []
  | x :: _ => xy <- coords2 x ;; Ok [Plot (fst xy) (snd xy) true c]
  end.

(** [for x in steps: plt.plot(x[0], x[1], '.', color=c)] *)
Fixpoint plot_each (steps : list vec) (c : color) : result (list plot_call) :=
  match steps with
  | [] => Ok []
  | x :: steps' =>
      xy <- coords2 x ;;
      calls <- plot_each steps' c ;;
      Ok (Plot (fst xy) (snd xy) false c :: calls)
  end.

Definition plot_iterations (vertices : list point2) (steps1 steps2 : list vec)
  : result (list plot_call) :=
  match vertices with
  | [] => Raise IndexError
  | v0 :: _ =>
      (* xs, ys: the two columns of vertices + [vertices[0]] *)
      let outline := vertices ++ [v0] in
      let xs := map fst outline in
      let ys := map snd outline in
      first1 <- plot_first steps1 (1, 2 # 10, 2 # 10) ;;
      each1 <- plot_each steps1 (8 # 10, 2 # 10, 2 # 10) ;;
      first2 <- plot_first steps2 (2 # 10, 1, 2 # 10) ;;
      each2 <- plot_each steps2 (2 # 10, 5 # 10, 2 # 10) ;;
      Ok (Fill xs ys :: first1 ++ each1 ++ first2 ++ each2)
  end.

(** A call of [plt.plot] that draws the first two coordinates of a point
    of [steps]. *)
Definition plots_point_of (steps : list vec) (call : plot_call) : Prop :=
  exists (s : vec) (marker : bool) (c : color),
    In s steps /\ call = Plot (nth 0 s 0) (nth 1 s 0) marker c.

(** The cell that runs the method on the polygon and draws the traces,
    as a function of the problem and of the three numbers it passes:
<<
    x, steps, newt_steps = barrier_method(c, A, b, x_0, 1e-5, 1.3, 0.1)
    plot_iterations(vertices, newt_steps[0], steps)
>> *)
Definition solve_and_plot {L : NumLib} (vertices : list point2)
    (c : vec) (A : matrix) (b x_0 : vec) (eps mu t0 : Q)
    (nfuel lfuel fuel : nat) : result (list plot_call) :=
  r <- barrier_method c A b eps mu false nfuel lfuel fuel x_0 t0 ;;
  let '(x, steps, newt_steps) := r in
  match newt_steps with
  | [] => Raise IndexError
  | first_stage :: _ => plot_iterations vertices first_stage steps
  end.

(** Inputs of further examples: the square [-1 <= x, y <= 1] with its
    vertices. *)
Definition box_A : matrix := [[1; 0]; [-1; 0]; [0; 1]; [0; -1]].
Definition box_b : vec := [1; 1; 1; 1].
Definition box_vertices : list point2 := [(1, 1); (-1, 1); (-1, -1); (1, -1)].

(** ** Notions the further properties are stated with *)

(** The value of [t] after [k] executions of [t *= beta], from [t = 1]. *)
Definition step_at (beta : Q) (k : nat) : Q :=
  Nat.iter k (fun t => t * beta) 1.

(** The sufficient-decrease test of the line search passes at [t]. *)
Definition armijo (f : vec -> Q) (df : vec -> vec) (x dx : vec) (alpha t : Q)
  : Prop :=
  f (vadd x (vscale t dx)) <= f x + alpha * t * dot (df x) dx.

(** Every two neighbours of a list are related by [R]. *)
Fixpoint consecutive {X : Type} (R : X -> X -> Prop) (l : list X) : Prop :=
  match l with
  | p :: (q :: _) as l' => R p q /\ consecutive R l'
  | _ => True
  end.

Section NewtonNotions.
Context {L : NumLib}.
Variable f : vec -> Q.
Variable in_domain_of_f : vec -> bool.
Variable df : vec -> vec.
Variable ddf : vec -> matrix.
Variable eps : Q.
Variable lfuel : nat.

(** The test that ends the loop of [newtons_method] passes at [x]. *)
Definition newton_stops (x : vec) : Prop :=
  exists y, linalg_solve (ddf x) (df x) = Some y /\
            dot (vneg (df x)) (vneg y) / 2 <= eps.

(** One pass through the loop of [newtons_method] leads from [p] to [q]. *)
Definition newton_step (p q : vec) : Prop :=
  exists y t,
    linalg_solve (ddf p) (df p) = Some y /\
    ~ dot (vneg (df p)) (vneg y) / 2 <= eps /\
    backtracking_line_search f in_domain_of_f df p (vneg y)
      alpha_default beta_default lfuel = Ok t /\
    q = vadd p (vscale t (vneg y)).
End NewtonNotions.

(** The inner traces [ns] start where the previous stage ended and end at
    the points [xs] recorded in the outer trace, from [x] on. *)
Fixpoint warm_started (x : vec) (xs : list vec) (ns : list (list vec)) : Prop :=
  match xs, ns with
  | [], [] => True
  | x1 :: xs', n1 :: ns' =>
      (exists rest, n1 = x :: rest) /\ last n1 x = x1 /\
      warm_started x1 xs' ns'
  | _, _ => False
  end.


(** ** The three functions in binary64

    The same code with the numbers the notebook computes with.  Arrays
    are lists of floats: the arguments are taken to be [float64] arrays of
    matching shapes, as in the notebook's calls (on other arguments numpy
    converts, broadcasts or raises; the lists truncate).  The arithmetic
    is IEEE 754 binary64, rounding to nearest: Python's [float] and
    numpy's [float64].  A sum of several terms is taken from left to
    right; numpy may add the terms of a product of arrays in another
    order, and the runs evaluated below are on arrays where the order
    does not matter.  The literals [0.1], [0.8] and [1e-4] denote the
    nearest floats, as in Python. *)

Definition fvec : Type := list float.
Definition fmatrix : Type := list fvec.

Definition vadd_b64 (u v : fvec) : fvec := map2 PrimFloat.add u v.
Definition vsub_b64 (u v : fvec) : fvec := map2 PrimFloat.sub u v.
Definition vdiv_b64 (u v : fvec) : fvec := map2 PrimFloat.div u v.
Definition vscale_b64 (a : float) (v : fvec) : fvec := map (PrimFloat.mul a) v.
Definition vneg_b64 (v : fvec) : fvec := map PrimFloat.opp v.

(** [np.sum] *)
Definition vsum_b64 (v : fvec) : float :=
  match v with
  | [] => 0%float
  | a :: v' => fold_left PrimFloat.add v' a
  end.

Definition dot_b64 (u v : fvec) : float := vsum_b64 (map2 PrimFloat.mul u v).
Definition mat_vec_b64 (A : fmatrix) (x : fvec) : fvec :=
  map (fun r => dot_b64 r x) A.
Definition ncols_b64 (A : fmatrix) : nat :=
  match A with
  | [] => O
  | r :: _ => length r
  end.
Definition column_b64 (j : nat) (A : fmatrix) : fvec :=
  map (fun r => nth j r 0%float) A.
Definition transpose_b64 (A : fmatrix) : fmatrix :=
  map (fun j => column_b64 j A) (seq 0 (ncols_b64 A)).
Definition mat_mul_b64 (M N : fmatrix) : fmatrix :=
  map (fun r => map (fun col => dot_b64 r col) (transpose_b64 N)) M.

(** [x[-1]] *)
Fixpoint last_coord_b64 (x : fvec) : option float :=
  match x with
  | [] => None
  | [a] => Some a
  | _ :: x' => last_coord_b64 x'
  end.

(** A Python [int] in an operation with a float: [m] in [m / t]. *)
Definition float_of_nat (n : nat) : float :=
  PrimFloat.of_uint63 (Uint63.of_Z (Z.of_nat n)).

(** The rational number a finite float stands for. *)
Definition float_value (x : float) : Q :=
  match FloatOps.Prim2SF x with
  | SpecFloat.S754_finite s m e =>
      (if s then -1 else 1) * inject_Z (Zpos m) * 2 ^ e
  | _ => 0
  end.

Class NumLib64 : Type := {
  np_log_b64 : float -> float;
  (** [np.linalg.solve H g]; [None] stands for a raised [LinAlgError]. *)
  linalg_solve_b64 : fmatrix -> fvec -> option fvec
}.

Definition alpha_default_b64 : float := 0.1.
Definition beta_default_b64 : float := 0.8.
Definition eps_default_b64 : float := 1e-4.

Section LineSearch64.
Variable f : fvec -> float.
Variable in_domain_of_f : fvec -> bool.
Variable df : fvec -> fvec.
Variables x dx : fvec.
Variables alpha beta : float.

(** [while not in_domain_of_f(x + t*dx): t *= beta] *)
Fixpoint domain_loop_b64 (fuel : nat) (t : float) : result float :=
  match fuel with
  | O => Timeout
  | S fuel' =>
      if in_domain_of_f (vadd_b64 x (vscale_b64 t dx)) then Ok t
      else domain_loop_b64 fuel' (t * beta)%float
  end.

(** [while f(x + t * dx) > f(x) + alpha * t * np.dot(df(x), dx): t *= beta] *)
Fixpoint armijo_loop_b64 (fuel : nat) (t : float) : result float :=
  match fuel with
  | O => Timeout
  | S fuel' =>
      if PrimFloat.ltb (f x + alpha * t * dot_b64 (df x) dx)%float
                       (f (vadd_b64 x (vscale_b64 t dx)))
      then armijo_loop_b64 fuel' (t * beta)%float
      else Ok t
  end.

Definition backtracking_line_search_b64 (fuel : nat) : result float :=
  t <- domain_loop_b64 fuel 1%float ;; armijo_loop_b64 fuel t.
End LineSearch64.

Section Newton64.
Context {L : NumLib64}.
Variable f : fvec -> float.
Variable in_domain_of_f : fvec -> bool.
Variable df : fvec -> fvec.
Variable ddf : fvec -> fmatrix.
Variable eps : float.
Variable lfuel : nat.

(** The [while True] loop; [steps] is the list built so far. *)
Fixpoint newton_loop_b64 (fuel : nat) (x : fvec) (steps : list fvec)
  : result (fvec * list fvec) :=
  match fuel with
  | O => Timeout
  | S fuel' =>
      match linalg_solve_b64 (ddf x) (df x) with
      | None => Raise LinAlgError
      | Some y =>
          let dx := vneg_b64 y in
          let lambda_sq := dot_b64 (vneg_b64 (df x)) dx in
          if PrimFloat.leb (lambda_sq / 2)%float eps then Ok (x, steps)
          else
            t <- backtracking_line_search_b64 f in_domain_of_f df x dx
                   alpha_default_b64 beta_default_b64 lfuel ;;
            let x' := vadd_b64 x (vscale_b64 t dx) in
            newton_loop_b64 fuel' x' (steps ++ [x'])
      end
  end.

Definition newtons_method_b64 (fuel : nat) (x : fvec)
  : result (fvec * list fvec) :=
  newton_loop_b64 fuel x [x].

(** The test that ends the loop passes at [x]: the solver returns [y]
    and, with [dx = -y] and [lambda_sq = -df(x)·dx],
    [lambda_sq/2 <= eps]. *)
Definition newton_stops_b64 (x : fvec) : Prop :=
  exists y,
    linalg_solve_b64 (ddf x) (df x) = Some y /\
    PrimFloat.leb (dot_b64 (vneg_b64 (df x)) (vneg_b64 y) / 2)%float eps
    = true.

(** One pass through the loop leads from [p] to [q]: the solver returns
    [y], the test fails, the line search returns [t] and
    [q = p + t*dx]. *)
Definition newton_step_b64 (p q : fvec) : Prop :=
  exists y t,
    linalg_solve_b64 (ddf p) (df p) = Some y /\
    PrimFloat.leb (dot_b64 (vneg_b64 (df p)) (vneg_b64 y) / 2)%float eps
    = false /\
    backtracking_line_search_b64 f in_domain_of_f df p (vneg_b64 y)
      alpha_default_b64 beta_default_b64 lfuel = Ok t /\
    q = vadd_b64 p (vscale_b64 t (vneg_b64 y)).
End Newton64.

Section Barrier64.
Context {L : NumLib64}.
Variable c : fvec.
Variable A : fmatrix.
Variable b : fvec.

(** [b - A @ x] *)
Definition slack_b64 (x : fvec) : fvec := vsub_b64 b (mat_vec_b64 A x).

(** [f = lambda x: t * c @ x - np.sum(np.log(b - A @ x))] *)
Definition barrier_f_b64 (t : float) (x : fvec) : float :=
  (dot_b64 (vscale_b64 t c) x - vsum_b64 (map np_log_b64 (slack_b64 x)))%float.

(** [in_domain_of_f = lambda x: all(b - A @ x > 0)] *)
Definition barrier_in_domain_b64 (x : fvec) : bool :=
  forallb (fun s => PrimFloat.ltb 0 s) (slack_b64 x).

(** [df = lambda x: t * c + np.sum(A.T / (b - A @ x), axis=1)] *)
Definition barrier_df_b64 (t : float) (x : fvec) : fvec :=
  vadd_b64 (vscale_b64 t c)
    (map vsum_b64
       (map (fun col => vdiv_b64 col (slack_b64 x)) (transpose_b64 A))).

(** [ddf = lambda x: (A.T / (b - A @ x)**2) @ A] *)
Definition barrier_ddf_b64 (x : fvec) : fmatrix :=
  mat_mul_b64
    (map (fun col => vdiv_b64 col (map (fun s => s * s)%float (slack_b64 x)))
         (transpose_b64 A))
    A.

Variables eps mu : float.
Variable phase_one : bool.
Variables nfuel lfuel : nat.

(** [(phase_one and x[-1]>0) or (not phase_one and m / t >= eps)];
    Python raises [ZeroDivisionError] on a division by the float zero. *)
Definition loop_condition_b64 (x : fvec) (t : float) : result bool :=
  if phase_one then
    match last_coord_b64 x with
    | None => Raise IndexError
    | Some s => Ok (PrimFloat.ltb 0 s)
    end
  else if PrimFloat.eqb t 0 then Raise ZeroDivisionError
  else Ok (PrimFloat.leb eps (float_of_nat (length A) / t)%float).

Fixpoint barrier_loop_b64 (fuel : nat) (x : fvec) (steps : list fvec)
    (newt_steps : list (list fvec)) (t : float)
  : result (fvec * list fvec * list (list fvec)) :=
  match fuel with
  | O => Timeout
  | S fuel' =>
      go <- loop_condition_b64 x t ;;
      if go : bool then
        r <- newtons_method_b64 (barrier_f_b64 t) barrier_in_domain_b64
               (barrier_df_b64 t) barrier_ddf_b64 eps_default_b64 lfuel
               nfuel x ;;
        let x' := fst r in
        barrier_loop_b64 fuel' x' (steps ++ [x']) (newt_steps ++ [snd r])
          (t * mu)%float
      else Ok (x, steps, newt_steps)
  end.

Definition barrier_method_b64 (fuel : nat) (x_0 : fvec) (t0 : float)
  : result (fvec * list fvec * list (list fvec)) :=
  barrier_loop_b64 fuel x_0 [x_0] [] t0.

(** The value of [t] at the test that follows [j] stages: [t0] after [j]
    executions of [t *= mu]. *)
Definition stage_t_b64 (t0 : float) (j : nat) : float :=
  Nat.iter j (fun t => t * mu)%float t0.

(** The first [k] centering calls of a run from [x] and [t] return. *)
Fixpoint centering_returns_b64 (k : nat) (x : fvec) (t : float) : Prop :=
  match k with
  | O => True
  | S k' =>
      match newtons_method_b64 (barrier_f_b64 t) barrier_in_domain_b64
              (barrier_df_b64 t) barrier_ddf_b64 eps_default_b64 lfuel
              nfuel x with
      | Ok r => centering_returns_b64 k' (fst r) (t * mu)%float
      | _ => False
      end
  end.
End Barrier64.

(** An instance to run examples: systems of one unknown are solved by
    one division, and the logarithm is the stand-in used for
    [small_lib].  No theorem depends on them. *)
Definition solve_small_b64 (H : fmatrix) (g : fvec) : option fvec :=
  match H, g with
  | [[a]], [g1] => if PrimFloat.eqb a 0 then None else Some [(g1 / a)%float]
  | _, _ => None
  end.

Definition small_lib_b64 : NumLib64 :=
  {| np_log_b64 := fun q => (2 * (q - 1) / (q + 1))%float;
     linalg_solve_b64 := solve_small_b64 |}.

(** Inputs of the examples in binary64: the interval [-1 <= x <= 1] with
    the objective [x], the interval [-2 <= x <= 1] with its left bound
    stated twice, and the quadratic [49 x²/2 - x]. *)
Definition interval_c_b64 : fvec := [1%float].
Definition interval_A_b64 : fmatrix := [[1%float]; [(-1)%float]].
Definition interval_b_b64 : fvec := [1%float; 1%float].
Definition wedge_A_b64 : fmatrix := [[1%float]; [(-1)%float]; [(-1)%float]].
Definition wedge_b_b64 : fvec := [1%float; 2%float; 2%float].
Definition quad49_f (y : fvec) : float :=
  (49 * nth 0 y 0 * nth 0 y 0 / 2 - nth 0 y 0)%float.
Definition quad49_df (y : fvec) : fvec := [(49 * nth 0 y 0 - 1)%float].
Definition quad49_ddf (y : fvec) : fmatrix := [[49%float]].

(** * Properties *)

(** ** Comparisons and results *)

Lemma Qlt_bool_iff (x y : Q) : Qlt_bool x y = true <-> x < y.
Proof.
  unfold Qlt_bool. rewrite negb_true_iff.
  split; intros H.
  - apply Qnot_le_lt. intros Hle. apply Qle_bool_iff in Hle. congruence.
  - destruct (Qle_bool y x) eqn:E; [| reflexivity].
    apply Qle_bool_iff in E. exfalso. exact (Qlt_not_le _ _ H E).
Qed.

Lemma Qlt_bool_false_iff (x y : Q) : Qlt_bool x y = false <-> y <= x.
Proof.
  unfold Qlt_bool. rewrite negb_false_iff. apply Qle_bool_iff.
Qed.

Lemma Qle_bool_false_iff (x y : Q) : Qle_bool x y = false <-> y < x.
Proof.
  rewrite <- Qlt_bool_iff. unfold Qlt_bool.
  destruct (Qle_bool x y); simpl; intuition congruence.
Qed.

Lemma bind_Ok {A B : Type} (r : result A) (k : A -> result B) (v : B) :
  bind r k = Ok v -> exists a, r = Ok a /\ k a = Ok v.
Proof. destruct r; simpl; intros H; try discriminate. eauto. Qed.

(** ** Vectors *)

Lemma map2_length {A B C : Type} (g : A -> B -> C) (u : list A) (v : list B) :
  length (map2 g u v) = Nat.min (length u) (length v).
Proof.
  revert v. induction u as [| a u IH]; intros [| b v]; simpl; auto.
Qed.

Lemma vadd_length (u v : vec) :
  length u = length v -> length (vadd u v) = length u.
Proof. intros H. unfold vadd. rewrite map2_length. lia. Qed.

Lemma vscale_length (a : Q) (v : vec) : length (vscale a v) = length v.
Proof. apply length_map. Qed.

Lemma vneg_length (v : vec) : length (vneg v) = length v.
Proof. apply length_map. Qed.

(** [r·(x + s dx) = r·x + s (r·dx)] when [x] and [dx] have one length. *)
Lemma dot_vadd_vscale (r x dx : vec) (s : Q) :
  length x = length dx ->
  dot r (vadd x (vscale s dx)) == dot r x + s * dot r dx.
Proof.
  revert x dx. unfold dot.
  induction r as [| a r IH]; intros [| x0 x] [| d dx] Hlen;
    simpl in *; try discriminate; try ring.
  injection Hlen as Hlen. fold (vscale s dx). fold (vadd x (vscale s dx)).
  rewrite (IH x dx Hlen). ring.
Qed.

(** ** The domain of the barrier objective *)

Lemma slack_row_slacks (A : matrix) (b x : vec) : slack A b x = row_slacks A b x.
Proof.
  unfold slack, row_slacks, vsub, mat_vec.
  revert b. induction A as [| r A IH]; intros [| bi b]; simpl; auto.
  f_equal. apply IH.
Qed.

Lemma barrier_in_domain_iff (A : matrix) (b x : vec) :
  barrier_in_domain A b x = true <-> strictly_feasible A b x.
Proof.
  unfold barrier_in_domain, strictly_feasible.
  rewrite slack_row_slacks, forallb_forall, Forall_forall.
  split; intros H s Hs; apply Qlt_bool_iff; auto.
Qed.

(** The polyhedron is convex: between two of its points, the segment. *)
Lemma strictly_feasible_segment (A : matrix) (b x dx : vec) (s k : Q) :
  length x = length dx ->
  0 <= k <= 1 ->
  strictly_feasible A b x ->
  strictly_feasible A b (vadd x (vscale s dx)) ->
  strictly_feasible A b (vadd x (vscale (s * k) dx)).
Proof.
  intros Hlen Hk. unfold strictly_feasible, row_slacks.
  revert A. induction b as [| bi b IH]; intros [| r A] H0 H1;
    simpl in *; try constructor.
  - inversion H0 as [| ? ? Hx H0']; inversion H1 as [| ? ? Hs H1']; subst.
    rewrite dot_vadd_vscale in * by assumption.
    set (p := dot r x) in *. set (d := dot r dx) in *.
    assert (E : bi - (p + s * k * d) ==
                (1 - k) * (bi - p) + k * (bi - (p + s * d))) by ring.
    rewrite E. clear E.
    destruct (Qlt_le_dec 0 k) as [Hpos | Hz].
    + apply Qlt_le_trans with (0 + k * (bi - (p + s * d))).
      * rewrite Qplus_0_l. apply Qmult_lt_0_compat; assumption.
      * apply Qplus_le_l. apply Qmult_le_0_compat; lra.
    + assert (k == 0) as -> by lra. lra.
  - inversion H0; inversion H1; subst. apply IH; assumption.
Qed.

Lemma barrier_in_domain_shrink (A : matrix) (b x dx : vec) (beta s : Q) :
  length x = length dx ->
  0 <= beta <= 1 ->
  barrier_in_domain A b x = true ->
  barrier_in_domain A b (vadd x (vscale s dx)) = true ->
  barrier_in_domain A b (vadd x (vscale (s * beta) dx)) = true.
Proof.
  rewrite !barrier_in_domain_iff. apply strictly_feasible_segment.
Qed.

(** ** Line search *)

Section LineSearchFacts.
Variable f : vec -> Q.
Variable in_domain_of_f : vec -> bool.
Variable df : vec -> vec.
Variables x dx : vec.
Variables alpha beta : Q.

Lemma domain_loop_in_domain (fuel : nat) (t t' : Q) :
  domain_loop in_domain_of_f x dx beta fuel t = Ok t' ->
  in_domain_of_f (vadd x (vscale t' dx)) = true.
Proof.
  revert t. induction fuel as [| fuel IH]; intros t; simpl; [discriminate |].
  destruct (in_domain_of_f (vadd x (vscale t dx))) eqn:E.
  - intros [= <-]. exact E.
  - apply IH.
Qed.

(** Leaving out the record of the calls gives the line search back. *)
Lemma armijo_loop_evals_step (fuel : nat) (t : Q) (evals : list vec) :
  armijo_loop f df x dx alpha beta fuel t =
  r <- armijo_loop_evals f df x dx alpha beta fuel t evals ;; Ok (fst r).
Proof.
  revert t evals. induction fuel as [| fuel IH]; intros t evals; simpl; auto.
  destruct (Qlt_bool _ _); auto.
Qed.

Lemma backtracking_line_search_evals_step (fuel : nat) :
  backtracking_line_search f in_domain_of_f df x dx alpha beta fuel =
  r <- backtracking_line_search_evals f in_domain_of_f df x dx alpha beta fuel ;;
  Ok (fst r).
Proof.
  unfold backtracking_line_search, backtracking_line_search_evals.
  destruct (domain_loop in_domain_of_f x dx beta fuel 1); simpl; auto.
  apply armijo_loop_evals_step.
Qed.

Hypothesis x_in_domain : in_domain_of_f x = true.
Hypothesis shrink_closed :
  forall s, in_domain_of_f (vadd x (vscale s dx)) = true ->
            in_domain_of_f (vadd x (vscale (s * beta) dx)) = true.

Lemma armijo_loop_evals_in_domain (fuel : nat) (t t' : Q) (evals evals' : list vec) :
  in_domain_of_f (vadd x (vscale t dx)) = true ->
  Forall (fun y => in_domain_of_f y = true) evals ->
  armijo_loop_evals f df x dx alpha beta fuel t evals = Ok (t', evals') ->
  Forall (fun y => in_domain_of_f y = true) evals' /\
  in_domain_of_f (vadd x (vscale t' dx)) = true.
Proof.
  revert t evals. induction fuel as [| fuel IH]; intros t evals Ht Hev; simpl;
    [discriminate |].
  assert (Hev' : Forall (fun y => in_domain_of_f y = true)
                        (evals ++ [vadd x (vscale t dx); x])).
  { apply Forall_app. split; [assumption |]. repeat constructor; assumption. }
  destruct (Qlt_bool _ _).
  - apply IH; auto.
  - intros [= <- <-]. split; assumption.
Qed.
End LineSearchFacts.

(** C8, as the specification states it, fails: with a domain that is not
    closed under shrinking the step (here the complement of the open
    interval (0,1)), the second loop evaluates [f] at [x + 0.8 dx], outside
    the domain, and the line search returns. *)
Lemma line_search_evaluates_outside_domain :
  ~ (forall (f : vec -> Q) (in_domain_of_f : vec -> bool) (df : vec -> vec)
            (x dx : vec) (fuel : nat) (t : Q) (evals : list vec),
        in_domain_of_f x = true ->
        backtracking_line_search_evals f in_domain_of_f df x dx
          alpha_default beta_default fuel = Ok (t, evals) ->
        Forall (fun y => in_domain_of_f y = true) evals).
Proof.
  intros H.
  pose (f := fun y : vec => (nth 0 y 0 - (1 # 2)) * (nth 0 y 0 - (1 # 2))).
  pose (dom := fun y : vec =>
                 Qle_bool (nth 0 y 0) 0 || Qle_bool 1 (nth 0 y 0)).
  pose (df := fun y : vec => [2 * (nth 0 y 0 - (1 # 2))]).
  specialize (H f dom df [0] [1] 5%nat (1 * beta_default)
                [vadd [0] (vscale 1 [1]); [0];
                 vadd [0] (vscale (1 * beta_default) [1]); [0]]
                eq_refl eq_refl).
  inversion H as [| ? ? _ H1]; subst.
  inversion H1 as [| ? ? _ H2]; subst.
  inversion H2 as [| ? ? Hbad _]; subst.
  vm_compute in Hbad. discriminate.
Qed.

(** C8 (amended): when the domain contains [x] and is closed under
    shrinking the step along [dx] by [beta] (as a convex domain is), a
    line search that returns has called [f] only at points of the domain. *)
Theorem line_search_evals_in_domain
    (f : vec -> Q) (in_domain_of_f : vec -> bool) (df : vec -> vec)
    (x dx : vec) (alpha beta : Q) (fuel : nat) (t : Q) (evals : list vec) :
  in_domain_of_f x = true ->
  (forall s, in_domain_of_f (vadd x (vscale s dx)) = true ->
             in_domain_of_f (vadd x (vscale (s * beta) dx)) = true) ->
  backtracking_line_search_evals f in_domain_of_f df x dx alpha beta fuel
    = Ok (t, evals) ->
  Forall (fun y => in_domain_of_f y = true) evals.
Proof.
  intros Hx Hshrink Hrun. unfold backtracking_line_search_evals in Hrun.
  apply bind_Ok in Hrun. destruct Hrun as (t1 & Hdom & Harm).
  apply domain_loop_in_domain in Hdom.
  eapply armijo_loop_evals_in_domain in Harm; eauto. tauto.
Qed.

(** ** Equality of arrays *)


Lemma veq_sym (u v : vec) : veq u v -> veq v u.
Proof. induction 1; constructor; auto. symmetry. assumption. Qed.


Lemma veq_length (u v : vec) : veq u v -> length u = length v.
Proof. induction 1; simpl; auto. Qed.

Lemma vneg_veq (u v : vec) : veq u v -> veq (vneg u) (vneg v).
Proof. induction 1; simpl; constructor; auto. apply Qopp_comp. assumption. Qed.


Lemma dot_vneg_l (g y : vec) : dot (vneg g) y == - dot g y.
Proof.
  unfold dot. revert y. induction g as [| a g IH]; intros [| b y]; simpl;
    try ring.
  fold (vneg g). rewrite IH. ring.
Qed.


(** ** The example instance meets the solver's contract *)

Lemma solve_small_sound (H : matrix) (g y : vec) :
  solve_small H g = Some y -> veq (mat_vec H y) g.
Proof.
  unfold solve_small.
  destruct H as [| [| a [| b' [| ? ?]]] [| [| c' [| d [| ? ?]]] [| ? ?]]];
    try discriminate;
    destruct g as [| g1 [| g2 [| ? ?]]]; try discriminate.
  - destruct (Qeq_bool a 0) eqn:E; [discriminate |]. intros [= <-].
    apply Qeq_bool_neq in E. unfold mat_vec, dot; simpl.
    constructor; [| constructor]. field. assumption.
  - destruct (Qeq_bool (a * d - b' * c') 0) eqn:E; [discriminate |].
    intros [= <-]. apply Qeq_bool_neq in E. unfold mat_vec, dot; simpl.
    repeat constructor; field; assumption.
Qed.

Lemma solve_small_length (H : matrix) (g y : vec) :
  solve_small H g = Some y -> length y = length g.
Proof.
  unfold solve_small.
  destruct H as [| [| a [| b' [| ? ?]]] [| [| c' [| d [| ? ?]]] [| ? ?]]];
    try discriminate;
    destruct g as [| g1 [| g2 [| ? ?]]]; try discriminate.
  - destruct (Qeq_bool a 0); [discriminate |]. intros [= <-]. reflexivity.
  - destruct (Qeq_bool (a * d - b' * c') 0); [discriminate |].
    intros [= <-]. reflexivity.
Qed.

Lemma small_lib_spec : NumLibSpec small_lib.
Proof.
  constructor.
  - exact solve_small_sound.
  - exact solve_small_length.
Qed.

(** ** Newton's method *)

(** C6, as the specification states it, fails: a Hessian that is not
    positive definite but is not singular is solved without any error.
    For [f(x) = -x²] the Hessian is [-2]; from [x = 1] the call returns. *)
Lemma newton_accepts_indefinite_hessian :
  ~ positive_definite [[-2]] /\
  ~ singular [[-2]] /\
  newtons_method (L := small_lib)
    (fun y => - (nth 0 y 0 * nth 0 y 0)) (fun _ => true)
    (fun y => [-2 * nth 0 y 0]) (fun _ => [[-2]])
    eps_default 5 5 [1]
  = Ok ([1], [[1]]).
Proof.
  split; [| split; [| reflexivity]].
  - intros H. specialize (H [1] eq_refl).
    assert (Hnz : ~ veq [1] (repeat 0 (length [[-2]]))).
    { intros Hv. inversion Hv as [| ? ? ? ? H1 _]; subst. discriminate H1. }
    specialize (H Hnz). vm_compute in H. discriminate.
  - intros (v & Hlen & Hnz & Hv).
    destruct v as [| v1 [| ? ?]]; try discriminate.
    unfold mat_vec, dot in Hv. simpl in Hv.
    inversion Hv as [| ? ? ? ? H1 _]; subst.
    apply Hnz. constructor; [| constructor]. lra.
Qed.

Lemma newton_loop_solve_fails (L : NumLib) (f : vec -> Q)
    (in_domain_of_f : vec -> bool) (df : vec -> vec) (ddf : vec -> matrix)
    (eps : Q) (lfuel fuel : nat) (x : vec) (steps : list vec) :
  linalg_solve (ddf x) (df x) = None ->
  newton_loop f in_domain_of_f df ddf eps lfuel (S fuel) x steps
  = Raise LinAlgError.
Proof. intros H. simpl. rewrite H. reflexivity. Qed.

(** ** The loop of the barrier method, stage by stage *)

Section StagesFacts.
Context {L : NumLib}.
Variable c : vec.
Variable A : matrix.
Variable b : vec.
Variables eps mu : Q.
Variable phase_one : bool.
Variables nfuel lfuel : nat.

Let loop := barrier_loop c A b eps mu phase_one nfuel lfuel.
Let stages := barrier_stages c A b eps mu phase_one nfuel lfuel.

Lemma barrier_stages_length (k : nat) (x : vec) (t : Q) (xs : list vec)
    (ns : list (list vec)) (x' : vec) :
  stages k x t xs ns x' -> length xs = k /\ length ns = k.
Proof. induction 1; simpl; intuition congruence. Qed.

(** The points at which the test of the loop was made: it passed at all
    but the last of them, the returned point. *)
Lemma barrier_stages_tests (k : nat) (x : vec) (t : Q) (xs : list vec)
    (ns : list (list vec)) (x' : vec) :
  stages k x t xs ns x' ->
  exists pre : list vec,
    x :: xs = pre ++ [x'] /\
    Forall (fun y => exists t', loop_condition A eps phase_one y t' = Ok true)
           pre /\
    exists t', loop_condition A eps phase_one x' t' = Ok false.
Proof.
  induction 1 as [x t Hc | k x t x1 n1 xs ns x' Hc _ _ IH].
  - exists []. simpl. eauto.
  - destruct IH as (pre & E & Hpre & Hlast).
    exists (x :: pre). simpl. rewrite E. repeat split; eauto.
Qed.

(** A run that returns is a finite sequence of stages. *)
Lemma barrier_loop_stages (fuel : nat) (x : vec) (steps : list vec)
    (newt_steps : list (list vec)) (t : Q) (x' : vec) (steps' : list vec)
    (newt_steps' : list (list vec)) :
  loop fuel x steps newt_steps t = Ok (x', steps', newt_steps') ->
  exists k xs ns,
    (k < fuel)%nat /\ stages k x t xs ns x' /\
    steps' = steps ++ xs /\ newt_steps' = newt_steps ++ ns.
Proof.
  subst loop stages.
  revert x steps newt_steps t.
  induction fuel as [| fuel IH]; intros x steps newt_steps t; simpl;
    [discriminate |].
  intros H. apply bind_Ok in H. destruct H as ([|] & Hcond & H).
  - apply bind_Ok in H. destruct H as ([x1 n1] & Hnewton & H).
    simpl in H. apply IH in H.
    destruct H as (k & xs & ns & Hk & Hst & -> & ->).
    exists (S k), (x1 :: xs), (n1 :: ns).
    rewrite <- !app_assoc. simpl.
    repeat split; [lia |].
    econstructor; eassumption.
  - injection H as <- <- <-.
    exists O, [], []. rewrite !app_nil_r.
    repeat split; [lia |]. constructor. assumption.
Qed.

(** A sequence of stages is a run that returns, given fuel for it. *)
Lemma barrier_stages_loop (k : nat) (x : vec) (t : Q) (xs : list vec)
    (ns : list (list vec)) (x' : vec) :
  stages k x t xs ns x' ->
  forall fuel steps newt_steps,
    (k < fuel)%nat ->
    loop fuel x steps newt_steps t = Ok (x', steps ++ xs, newt_steps ++ ns).
Proof.
  subst loop stages.
  induction 1 as [x t Hc | k x t x1 n1 xs ns x' Hc Hn _ IH];
    intros [| fuel] steps newt_steps Hk; try lia; simpl.
  - rewrite Hc. simpl. rewrite !app_nil_r. reflexivity.
  - rewrite Hc. simpl. rewrite Hn. simpl.
    rewrite IH by lia. rewrite <- !app_assoc. reflexivity.
Qed.
End StagesFacts.

(** ** Invariants of the iterates *)

Section NewtonInvariant.
Context {L : NumLib}.
Variable f : vec -> Q.
Variable in_domain_of_f : vec -> bool.
Variable df : vec -> vec.
Variable ddf : vec -> matrix.
Variable eps : Q.
Variable lfuel : nat.
Variable P : vec -> Prop.

(** [P] is kept by the update [x += t * dx]. *)
Hypothesis P_step :
  forall x y t,
    P x ->
    linalg_solve (ddf x) (df x) = Some y ->
    backtracking_line_search f in_domain_of_f df x (vneg y)
      alpha_default beta_default lfuel = Ok t ->
    P (vadd x (vscale t (vneg y))).

Lemma newton_loop_invariant (fuel : nat) (x : vec) (steps : list vec)
    (x' : vec) (steps' : list vec) :
  P x -> Forall P steps ->
  newton_loop f in_domain_of_f df ddf eps lfuel fuel x steps = Ok (x', steps') ->
  P x' /\ Forall P steps'.
Proof.
  revert x steps. induction fuel as [| fuel IH]; intros x steps Hx Hsteps;
    simpl; [discriminate |].
  destruct (linalg_solve (ddf x) (df x)) as [y |] eqn:Hsolve; [| discriminate].
  destruct (Qle_bool _ _).
  - intros [= <- <-]. split; assumption.
  - intros H. apply bind_Ok in H. destruct H as (t & Hls & H).
    assert (Hx1 : P (vadd x (vscale t (vneg y))))
      by (eapply P_step; eassumption).
    apply IH in H; [assumption | assumption |].
    apply Forall_app. split; [assumption |].
    constructor; [assumption | constructor].
Qed.

Lemma newtons_method_invariant (fuel : nat) (x x' : vec) (steps' : list vec) :
  P x ->
  newtons_method f in_domain_of_f df ddf eps lfuel fuel x = Ok (x', steps') ->
  P x' /\ Forall P steps'.
Proof.
  intros Hx. apply newton_loop_invariant; auto.
Qed.
End NewtonInvariant.

Section StagesInvariant.
Context {L : NumLib}.
Variable c : vec.
Variable A : matrix.
Variable b : vec.
Variables eps mu : Q.
Variable phase_one : bool.
Variables nfuel lfuel : nat.
Variable P : vec -> Prop.

(** [P] is kept by every centering call. *)
Hypothesis P_centering :
  forall t x x1 n1,
    P x ->
    newtons_method (barrier_f c A b t) (barrier_in_domain A b)
      (barrier_df c A b t) (barrier_ddf A b) eps_default lfuel nfuel x
    = Ok (x1, n1) ->
    P x1 /\ Forall P n1.

Lemma barrier_stages_invariant (k : nat) (x : vec) (t : Q) (xs : list vec)
    (ns : list (list vec)) (x' : vec) :
  barrier_stages c A b eps mu phase_one nfuel lfuel k x t xs ns x' ->
  P x ->
  P x' /\ Forall P xs /\ Forall (Forall P) ns.
Proof.
  induction 1 as [x t Hc | k x t x1 n1 xs ns x' Hc Hn _ IH]; intros Hx.
  - auto.
  - destruct (P_centering t Hx Hn) as [Hx1 Hn1].
    destruct (IH Hx1) as (Hx' & Hxs & Hns). auto.
Qed.
End StagesInvariant.

(** *** Lengths *)

Lemma transpose_length (A : matrix) : length (transpose A) = ncols A.
Proof. unfold transpose. rewrite length_map, length_seq. reflexivity. Qed.

Lemma barrier_df_length (c : vec) (A : matrix) (b : vec) (t : Q) (x : vec) :
  length c = ncols A -> length (barrier_df c A b t x) = ncols A.
Proof.
  intros Hc. unfold barrier_df, vadd.
  rewrite map2_length, vscale_length, !length_map, transpose_length. lia.
Qed.

Lemma newton_update_length (L : NumLib) (HL : NumLibSpec L) (c : vec)
    (A : matrix) (b : vec) (t s : Q) (x y : vec) :
  length c = ncols A -> length x = ncols A ->
  linalg_solve (barrier_ddf A b x) (barrier_df c A b t x) = Some y ->
  length (vneg y) = length x /\
  length (vadd x (vscale s (vneg y))) = ncols A.
Proof.
  intros Hc Hx Hsolve. apply linalg_solve_length in Hsolve.
  rewrite barrier_df_length in Hsolve by assumption.
  assert (Hy : length (vneg y) = length x) by (rewrite vneg_length; lia).
  split; [assumption |].
  rewrite vadd_length; [assumption |]. rewrite vscale_length. lia.
Qed.

Lemma centering_length (L : NumLib) (HL : NumLibSpec L) (c : vec) (A : matrix)
    (b : vec) (nfuel lfuel : nat) (t : Q) (x x1 : vec) (n1 : list vec) :
  length c = ncols A ->
  length x = ncols A ->
  newtons_method (barrier_f c A b t) (barrier_in_domain A b)
    (barrier_df c A b t) (barrier_ddf A b) eps_default lfuel nfuel x
  = Ok (x1, n1) ->
  length x1 = ncols A /\ Forall (fun p => length p = ncols A) n1.
Proof.
  intros Hc Hx.
  apply newtons_method_invariant with (P := fun p => length p = ncols A).
  - intros p y s Hp Hsolve _.
    eapply proj2, newton_update_length with (c := c); eassumption.
  - assumption.
Qed.

(** ** What [barrier_method] checks, records and tests *)

Lemma loop_condition_gap (A : matrix) (eps : Q) (x : vec) (t : Q) :
  ~ t == 0 ->
  loop_condition A eps false x t
  = Ok (Qle_bool eps (inject_Z (Z.of_nat (nrows A)) / t)).
Proof.
  intros Ht. unfold loop_condition.
  destruct (Qeq_bool t 0) eqn:E; [| reflexivity].
  apply Qeq_bool_iff in E. contradiction.
Qed.

(** C5, as the specification states it, fails: [x_0 = 0] violates both
    constraints [x <= -1] and [-x <= -1], [phase_one] is false, and the
    call runs two stages and returns that point. *)
Lemma infeasible_start_is_not_detected :
  ~ strictly_feasible [[1]; [-1]] [-1; -1] [0] /\
  barrier_method (L := small_lib) [0] [[1]; [-1]] [-1; -1] 1 2 false 5 5 5 [0] 1
  = Ok ([0], [[0]; [0]; [0]], [[[0]]; [[0]]]).
Proof.
  split; [| reflexivity].
  intros H. inversion H as [| ? ? H1 _]; subst.
  vm_compute in H1. discriminate.
Qed.

(** C5 (amended): [barrier_method] makes no check of its arguments.  With
    [phase_one] false the first thing it evaluates is the test [m / t >= eps]
    of its loop, which reads neither [x_0], [c] nor [b]: when the test
    fails at [t0] the call returns [x_0] and the trace [[x_0]], and when it
    passes the call goes straight to the first centering step from [x_0],
    whatever [x_0] is and whatever the lengths of [c], [b] and [x_0] are. *)
Theorem barrier_method_checks_nothing
    (L : NumLib) (c : vec) (A : matrix) (b : vec) (eps mu : Q)
    (nfuel lfuel fuel : nat) (x_0 : vec) (t0 : Q) :
  ~ t0 == 0 ->
  (inject_Z (Z.of_nat (nrows A)) / t0 < eps ->
   barrier_method c A b eps mu false nfuel lfuel (S fuel) x_0 t0
   = Ok (x_0, [x_0], [])) /\
  (eps <= inject_Z (Z.of_nat (nrows A)) / t0 ->
   barrier_method c A b eps mu false nfuel lfuel (S fuel) x_0 t0
   = (r <- newtons_method (barrier_f c A b t0) (barrier_in_domain A b)
             (barrier_df c A b t0) (barrier_ddf A b) eps_default lfuel nfuel
             x_0 ;;
      barrier_loop c A b eps mu false nfuel lfuel fuel (fst r)
        ([x_0] ++ [fst r]) ([] ++ [snd r]) (t0 * mu))).
Proof.
  intros Ht. unfold barrier_method. cbn [barrier_loop].
  rewrite loop_condition_gap by exact Ht. cbn [bind]. split.
  - intros Hstop. apply Qle_bool_false_iff in Hstop. rewrite Hstop.
    reflexivity.
  - intros Hgo. apply Qle_bool_iff in Hgo. rewrite Hgo. reflexivity.
Qed.

(** C9, as the specification states it, fails: with [phase_one] set and a
    last coordinate equal to zero the loop stops at once, although that
    coordinate is not below zero. *)
Lemma phase_one_stops_at_zero :
  barrier_method (L := small_lib) [0; 1] [[1; -1]; [-1; -1]] [1; 1] 1 2 true
    5 5 5 [1 # 2; 0] 1
  = Ok ([1 # 2; 0], [[1 # 2; 0]], []) /\
  last_coord [1 # 2; 0] = Some 0 /\ ~ 0 < 0.
Proof.
  split; [reflexivity |]. split; [reflexivity |]. apply Qlt_irrefl.
Qed.

Lemma loop_condition_phase_one (A : matrix) (eps : Q) (x : vec) (t : Q)
    (go : bool) :
  loop_condition A eps true x t = Ok go ->
  exists s, last_coord x = Some s /\ go = Qlt_bool 0 s.
Proof.
  unfold loop_condition. destruct (last_coord x) as [s |]; [| discriminate].
  intros [= <-]. eauto.
Qed.

Lemma barrier_method_phase_one_stop (L : NumLib) (c : vec) (A : matrix)
    (b : vec) (eps mu : Q) (nfuel lfuel fuel : nat) (x_0 : vec) (t0 s : Q) :
  last_coord x_0 = Some s -> s <= 0 ->
  barrier_method c A b eps mu true nfuel lfuel (S fuel) x_0 t0
  = Ok (x_0, [x_0], []).
Proof.
  intros Hs Hneg. unfold barrier_method. simpl. unfold loop_condition.
  rewrite Hs. apply Qlt_bool_false_iff in Hneg. rewrite Hneg. reflexivity.
Qed.

(** C9 (amended): with [phase_one] set the loop goes on while the last
    coordinate of the iterate is positive and stops as soon as it is zero
    or negative; the tolerance [eps] and the parameter [t] play no part.
    So a call on a point whose last coordinate is not positive returns it
    at once, and in every call that returns the last coordinate is
    positive at each recorded point but the last, and is not at the
    returned point. *)
Theorem phase_one_stopping_rule
    (L : NumLib) (c : vec) (A : matrix) (b : vec) (eps mu : Q)
    (nfuel lfuel fuel : nat) (x_0 : vec) (t0 : Q)
    (x : vec) (steps : list vec) (newt_steps : list (list vec)) :
  barrier_method c A b eps mu true nfuel lfuel fuel x_0 t0
  = Ok (x, steps, newt_steps) ->
  (exists s, last_coord x = Some s /\ s <= 0) /\
  (exists pre : list vec,
      steps = pre ++ [x] /\
      Forall (fun y => exists s, last_coord y = Some s /\ 0 < s) pre) /\
  (forall s, last_coord x_0 = Some s -> s <= 0 ->
             x = x_0 /\ steps = [x_0] /\ newt_steps = []).
Proof.
  intros Hrun. split; [| split].
  - unfold barrier_method in Hrun. apply barrier_loop_stages in Hrun.
    destruct Hrun as (k & xs & ns & _ & Hst & _ & _).
    apply barrier_stages_tests in Hst.
    destruct Hst as (_ & _ & _ & t' & Hlast).
    apply loop_condition_phase_one in Hlast.
    destruct Hlast as (s & Hs & Hneg).
    symmetry in Hneg. apply Qlt_bool_false_iff in Hneg. eauto.
  - unfold barrier_method in Hrun. apply barrier_loop_stages in Hrun.
    destruct Hrun as (k & xs & ns & _ & Hst & -> & _).
    apply barrier_stages_tests in Hst.
    destruct Hst as (pre & E & Hpre & _).
    exists pre. split; [exact E |].
    eapply Forall_impl; [| exact Hpre].
    intros y (t1 & Hy). apply loop_condition_phase_one in Hy.
    destruct Hy as (s1 & Hs1 & Hpos). symmetry in Hpos.
    apply Qlt_bool_iff in Hpos. eauto.
  - intros s Hs Hneg.
    destruct fuel as [| fuel]; [discriminate |].
    rewrite (@barrier_method_phase_one_stop L c A b eps mu nfuel lfuel fuel
               x_0 t0 s Hs Hneg) in Hrun.
    injection Hrun as <- <- <-. auto.
Qed.

(** C7, as the specification states it, fails: the outer trace starts with
    the copy of [x_0] made before the loop, so a run of three stages
    returns a trace of four points. *)
Lemma outer_trace_counts_initial_point :
  exists (x : vec) (xs : list vec) (ns : list (list vec)),
    barrier_method (L := small_lib) [1] [[1]; [-1]] [1; 1] 5 2 false 5 5 5
      [0] (1 # 10)
    = Ok (x, [0] :: xs, ns) /\
    barrier_stages (L := small_lib) [1] [[1]; [-1]] [1; 1] 5 2 false 5 5
      3 [0] (1 # 10) xs ns x /\
    length ([0] :: xs) = 4%nat.
Proof.
  destruct (barrier_method (L := small_lib) [1] [[1]; [-1]] [1; 1] 5 2 false
              5 5 5 [0] (1 # 10)) as [[[x steps] ns] | |] eqn:Hrun;
    try (vm_compute in Hrun; discriminate).
  pose proof Hrun as Hst. unfold barrier_method in Hst.
  apply barrier_loop_stages in Hst.
  destruct Hst as (k & xs & ns' & _ & Hst & -> & E). simpl in E. subst ns'.
  exists x, xs, ns. split; [reflexivity |].
  assert (Hlen : length ([[0]] ++ xs) = 4%nat).
  { assert (F : match barrier_method (L := small_lib) [1] [[1]; [-1]] [1; 1]
                        5 2 false 5 5 5 [0] (1 # 10) with
                | Ok (_, s, _) => length s
                | _ => O
                end = 4%nat) by (vm_compute; reflexivity).
    rewrite Hrun in F. exact F. }
  split; [| exact Hlen].
  destruct (barrier_stages_length Hst) as [Hk _].
  simpl in Hlen.
  assert (Ek : k = 3%nat) by (rewrite <- Hk; apply eq_add_S; exact Hlen).
  rewrite Ek in Hst. exact Hst.
Qed.

(** C7 (amended): the outer trace of a call that returns holds the copy of
    [x_0] made at entry followed by one point for each stage, so one point
    more than there were stages; with [c] and [x_0] of length [n], the
    number of columns of [A], every point of it has length [n]. *)
Theorem outer_trace_shape
    (L : NumLib) (HL : NumLibSpec L) (c : vec) (A : matrix) (b : vec)
    (eps mu : Q) (phase_one : bool) (nfuel lfuel fuel : nat)
    (x_0 : vec) (t0 : Q)
    (x : vec) (steps : list vec) (newt_steps : list (list vec)) :
  length c = ncols A ->
  length x_0 = ncols A ->
  barrier_method c A b eps mu phase_one nfuel lfuel fuel x_0 t0
  = Ok (x, steps, newt_steps) ->
  exists (k : nat) (xs : list vec),
    barrier_stages c A b eps mu phase_one nfuel lfuel k x_0 t0 xs newt_steps x /\
    steps = x_0 :: xs /\
    length xs = k /\
    length newt_steps = k /\
    length steps = S k /\
    Forall (fun p => length p = ncols A) steps.
Proof.
  intros Hc Hx Hrun. unfold barrier_method in Hrun.
  apply barrier_loop_stages in Hrun.
  destruct Hrun as (k & xs & ns & _ & Hst & -> & ->).
  exists k, xs. simpl.
  destruct (barrier_stages_length Hst) as [Hk Hnk].
  repeat split; auto.
  eapply barrier_stages_invariant
    with (P := fun p => length p = ncols A) in Hst; [| | exact Hx].
  - constructor; [exact Hx | tauto].
  - intros t p p1 n1 Hp Hn.
    eapply centering_length with (c := c); eassumption.
Qed.

(** ** The number of stages *)

Lemma Qpower_succ_nat (a : Q) (k : nat) :
  a ^ Z.of_nat (S k) == a * a ^ Z.of_nat k.
Proof.
  rewrite Nat2Z.inj_succ. unfold Z.succ.
  rewrite Qpower_plus' by lia. rewrite Qpower_1_r. ring.
Qed.

Lemma inject_Z_succ_nat (k : nat) :
  inject_Z (Z.of_nat (S k)) == inject_Z (Z.of_nat k) + 1.
Proof.
  rewrite Nat2Z.inj_succ. unfold Z.succ. rewrite inject_Z_plus. reflexivity.
Qed.

(** Bernoulli's inequality. *)
Lemma Qpower_bernoulli (mu : Q) (k : nat) :
  1 <= mu -> 1 + inject_Z (Z.of_nat k) * (mu - 1) <= mu ^ Z.of_nat k.
Proof.
  intros Hmu. induction k as [| k IH].
  - change (1 + 0 * (mu - 1) <= 1). lra.
  - rewrite Qpower_succ_nat, inject_Z_succ_nat.
    set (p := mu ^ Z.of_nat k) in *. set (q := inject_Z (Z.of_nat k)) in *.
    assert (Hq : 0 <= q).
    { subst q. change 0 with (inject_Z 0). rewrite <- Zle_Qle. lia. }
    assert (H1 : mu * (1 + q * (mu - 1)) <= mu * p).
    { apply Qmult_le_l; [lra | exact IH]. }
    assert (H2 : 0 <= q * ((mu - 1) * (mu - 1))).
    { apply Qmult_le_0_compat; [exact Hq |].
      apply Qmult_le_0_compat; lra. }
    lra.
Qed.

(** The bound [M / t] falls below any positive [eps] as [t] grows by the
    factor [mu > 1]. *)
Lemma gap_eventually_small (M eps mu t0 : Q) :
  0 < eps -> 1 < mu -> 0 < t0 ->
  exists k : nat, M / (t0 * mu ^ Z.of_nat k) < eps.
Proof.
  intros Heps Hmu Ht0.
  assert (Hd : 0 < eps * t0 * (mu - 1)).
  { repeat apply Qmult_lt_0_compat; lra. }
  destruct (Qarchimedean (M / (eps * t0 * (mu - 1)))) as [p Hp].
  exists (Pos.to_nat p).
  assert (Hpow : 0 < mu ^ Z.of_nat (Pos.to_nat p)) by (apply Qpower_0_lt; lra).
  apply Qlt_shift_div_r; [apply Qmult_lt_0_compat; assumption |].
  pose proof (Qpower_bernoulli (Pos.to_nat p) (Qlt_le_weak _ _ Hmu)) as Hb.
  rewrite positive_nat_Z in *.
  set (P := mu ^ Z.pos p) in *. set (q := inject_Z (Z.pos p)) in *.
  assert (HM : M < q * (eps * t0 * (mu - 1))).
  { setoid_replace M with (M / (eps * t0 * (mu - 1)) * (eps * t0 * (mu - 1)))
      at 1 by (field; lra).
    apply Qmult_lt_r; assumption. }
  assert (Het : 0 < eps * t0) by (apply Qmult_lt_0_compat; assumption).
  assert (H1 : (eps * t0) * (1 + q * (mu - 1)) <= (eps * t0) * P).
  { apply Qmult_le_l; assumption. }
  lra.
Qed.

Lemma Qlt_dec (x y : Q) : {x < y} + {~ x < y}.
Proof.
  destruct (Qlt_le_dec x y) as [H | H]; [left; exact H |].
  right. apply Qle_not_lt. exact H.
Qed.

Lemma least_index (P : nat -> Prop) (dec : forall n, {P n} + {~ P n}) (n : nat) :
  P n -> exists k, P k /\ forall j, (j < k)%nat -> ~ P j.
Proof.
  intros Hn.
  assert (H : forall i,
             (exists k, P k /\ forall j, (j < k)%nat -> ~ P j) \/
             (forall j, (j < i)%nat -> ~ P j)).
  { induction i as [| i [IH | IH]].
    - right. intros j Hj. lia.
    - left. exact IH.
    - destruct (dec i) as [Hi | Hi].
      + left. exists i. split; assumption.
      + right. intros j Hj.
        destruct (Nat.eq_dec j i) as [-> | Hne]; [exact Hi |].
        apply IH. lia. }
  destruct (H (S n)) as [Hk | Hnone]; [exact Hk |].
  exfalso. apply (Hnone n); [lia | exact Hn].
Qed.

Section StageCount.
Context {L : NumLib}.
Variable c : vec.
Variable A : matrix.
Variable b : vec.
Variables eps mu : Q.
Variables nfuel lfuel : nat.
Hypothesis mu_pos : 0 < mu.

Let m : Q := inject_Z (Z.of_nat (nrows A)).

(** When the test passes at [t, t mu, ..., t mu^(k-1)] and fails at
    [t mu^k], and the centering calls return, there are [k] stages. *)
Lemma barrier_stages_exist (k : nat) :
  forall (x : vec) (t : Q),
    0 < t ->
    (forall i, (i < k)%nat -> eps <= m / (t * mu ^ Z.of_nat i)) ->
    m / (t * mu ^ Z.of_nat k) < eps ->
    centering_returns c A b mu nfuel lfuel k x t ->
    exists xs ns x',
      barrier_stages c A b eps mu false nfuel lfuel k x t xs ns x'.
Proof.
  induction k as [| k IH]; intros x t Ht Hgo Hstop Hret.
  - exists [], [], x. constructor.
    rewrite loop_condition_gap by lra. f_equal.
    apply Qle_bool_false_iff.
    change (mu ^ Z.of_nat 0) with 1 in Hstop.
    rewrite Qmult_1_r in Hstop. exact Hstop.
  - simpl in Hret.
    destruct (newtons_method _ _ _ _ _ _ _ _) as [[x1 n1] | |] eqn:Hn;
      try contradiction.
    simpl in Hret.
    assert (Htm : 0 < t * mu) by (apply Qmult_lt_0_compat; assumption).
    destruct (IH x1 (t * mu) Htm) as (xs & ns & x' & Hst).
    + intros i Hi. specialize (Hgo (S i) ltac:(lia)).
      rewrite Qpower_succ_nat, Qmult_assoc in Hgo. exact Hgo.
    + rewrite Qpower_succ_nat, Qmult_assoc in Hstop. exact Hstop.
    + exact Hret.
    + exists (x1 :: xs), (n1 :: ns), x'.
      econstructor; [| exact Hn | exact Hst].
      rewrite loop_condition_gap by lra. f_equal.
      apply Qle_bool_iff.
      specialize (Hgo O ltac:(lia)).
      change (mu ^ Z.of_nat 0) with 1 in Hgo.
      rewrite Qmult_1_r in Hgo. exact Hgo.
Qed.
End StageCount.

(** In exact arithmetic: with [phase_one] false, [eps > 0], [mu > 1] and
    [t0 > 0], when every centering call the loop makes returns, the run of
    the exact embedding has exactly [k] stages, [k] being the least number
    with [m / (t0 * mu^k) < eps]: the test [m / t >= eps] passes at
    [t0, ..., t0 mu^(k-1)] and fails at [t0 mu^k]. *)
Theorem barrier_stage_count_exact
    (L : NumLib) (c : vec) (A : matrix) (b : vec) (eps mu : Q)
    (nfuel lfuel : nat) (x_0 : vec) (t0 : Q) :
  0 < eps -> 1 < mu -> 0 < t0 ->
  (forall k,
      (forall i, (i < k)%nat ->
                 eps <= inject_Z (Z.of_nat (nrows A)) / (t0 * mu ^ Z.of_nat i)) ->
      centering_returns c A b mu nfuel lfuel k x_0 t0) ->
  exists k : nat,
    inject_Z (Z.of_nat (nrows A)) / (t0 * mu ^ Z.of_nat k) < eps /\
    (forall j, (j < k)%nat ->
               ~ inject_Z (Z.of_nat (nrows A)) / (t0 * mu ^ Z.of_nat j) < eps) /\
    forall fuel, (k < fuel)%nat ->
      exists x xs ns,
        barrier_method c A b eps mu false nfuel lfuel fuel x_0 t0
        = Ok (x, x_0 :: xs, ns) /\
        barrier_stages c A b eps mu false nfuel lfuel k x_0 t0 xs ns x /\
        length xs = k /\ length ns = k.
Proof.
  intros Heps Hmu Ht0 Hret.
  set (m := inject_Z (Z.of_nat (nrows A))) in *.
  destruct (gap_eventually_small m Heps Hmu Ht0) as [n Hn].
  destruct (least_index (fun k => m / (t0 * mu ^ Z.of_nat k) < eps)
              (fun k => Qlt_dec _ _) n Hn) as (k & Hk & Hleast).
  exists k. split; [exact Hk |]. split; [exact Hleast |].
  intros fuel Hfuel.
  assert (Hgo : forall i, (i < k)%nat -> eps <= m / (t0 * mu ^ Z.of_nat i)).
  { intros i Hi. apply Qnot_lt_le. apply Hleast. exact Hi. }
  assert (Hmu0 : 0 < mu) by lra.
  destruct (@barrier_stages_exist L c A b eps mu nfuel lfuel Hmu0 k x_0 t0
              Ht0 Hgo Hk (Hret k Hgo)) as (xs & ns & x & Hst).
  exists x, xs, ns.
  destruct (barrier_stages_length Hst) as [Hxs Hns].
  repeat split; try assumption.
  unfold barrier_method.
  exact (barrier_stages_loop Hst [x_0] [] Hfuel).
Qed.

(** ** The iterates stay strictly feasible *)

Lemma armijo_loop_in_domain (f : vec -> Q) (in_domain_of_f : vec -> bool)
    (df : vec -> vec) (x dx : vec) (alpha beta : Q) (fuel : nat) (t t' : Q) :
  (forall s, in_domain_of_f (vadd x (vscale s dx)) = true ->
             in_domain_of_f (vadd x (vscale (s * beta) dx)) = true) ->
  in_domain_of_f (vadd x (vscale t dx)) = true ->
  armijo_loop f df x dx alpha beta fuel t = Ok t' ->
  in_domain_of_f (vadd x (vscale t' dx)) = true.
Proof.
  intros Hshrink. revert t.
  induction fuel as [| fuel IH]; intros t Ht; simpl; [discriminate |].
  destruct (Qlt_bool _ _).
  - apply IH. apply Hshrink. exact Ht.
  - intros [= <-]. exact Ht.
Qed.

(** The step the line search returns leads to a point of the domain. *)
Lemma backtracking_line_search_in_domain (f : vec -> Q)
    (in_domain_of_f : vec -> bool) (df : vec -> vec) (x dx : vec)
    (alpha beta : Q) (fuel : nat) (t : Q) :
  (forall s, in_domain_of_f (vadd x (vscale s dx)) = true ->
             in_domain_of_f (vadd x (vscale (s * beta) dx)) = true) ->
  backtracking_line_search f in_domain_of_f df x dx alpha beta fuel = Ok t ->
  in_domain_of_f (vadd x (vscale t dx)) = true.
Proof.
  intros Hshrink Hrun. unfold backtracking_line_search in Hrun.
  apply bind_Ok in Hrun. destruct Hrun as (t1 & Hdom & Harm).
  apply domain_loop_in_domain in Hdom.
  eapply armijo_loop_in_domain; eassumption.
Qed.

Lemma beta_default_range : 0 <= beta_default <= 1.
Proof. split; discriminate. Qed.

Lemma centering_feasible (L : NumLib) (HL : NumLibSpec L) (c : vec)
    (A : matrix) (b : vec) (nfuel lfuel : nat) (t : Q) (x x1 : vec)
    (n1 : list vec) :
  length c = ncols A ->
  length x = ncols A /\ strictly_feasible A b x ->
  newtons_method (barrier_f c A b t) (barrier_in_domain A b)
    (barrier_df c A b t) (barrier_ddf A b) eps_default lfuel nfuel x
  = Ok (x1, n1) ->
  (length x1 = ncols A /\ strictly_feasible A b x1) /\
  Forall (fun p => length p = ncols A /\ strictly_feasible A b p) n1.
Proof.
  intros Hc Hx.
  apply newtons_method_invariant
    with (P := fun p => length p = ncols A /\ strictly_feasible A b p).
  - intros p y s [Hlen Hp] Hsolve Hls.
    destruct (@newton_update_length L HL c A b t s p y Hc Hlen Hsolve)
      as [Hy Hlen'].
    split; [exact Hlen' |].
    apply barrier_in_domain_iff.
    eapply backtracking_line_search_in_domain; [| exact Hls].
    intros r Hr. apply barrier_in_domain_shrink; auto.
    + apply beta_default_range.
    + apply barrier_in_domain_iff. exact Hp.
  - exact Hx.
Qed.

(** C4: in a call of [barrier_method] that starts from a strictly feasible
    [x_0] and returns, the returned point, every point of the outer trace
    and every point of every inner trace is strictly feasible. *)
Theorem iterates_strictly_feasible
    (L : NumLib) (HL : NumLibSpec L) (c : vec) (A : matrix) (b : vec)
    (eps mu : Q) (phase_one : bool) (nfuel lfuel fuel : nat)
    (x_0 : vec) (t0 : Q)
    (x : vec) (steps : list vec) (newt_steps : list (list vec)) :
  length c = ncols A ->
  length x_0 = ncols A ->
  strictly_feasible A b x_0 ->
  barrier_method c A b eps mu phase_one nfuel lfuel fuel x_0 t0
  = Ok (x, steps, newt_steps) ->
  strictly_feasible A b x /\
  Forall (strictly_feasible A b) steps /\
  Forall (Forall (strictly_feasible A b)) newt_steps.
Proof.
  intros Hc Hlen Hx0 Hrun. unfold barrier_method in Hrun.
  apply barrier_loop_stages in Hrun.
  destruct Hrun as (k & xs & ns & _ & Hst & -> & ->).
  eapply barrier_stages_invariant
    with (P := fun p => length p = ncols A /\ strictly_feasible A b p) in Hst.
  - destruct Hst as ((_ & Hx) & Hxs & Hns). simpl.
    split; [exact Hx |]. split.
    + constructor; [exact Hx0 |].
      eapply Forall_impl; [| exact Hxs]. intros p Hp. apply Hp.
    + eapply Forall_impl; [| exact Hns]. intros n1 Hn1.
      eapply Forall_impl; [| exact Hn1]. intros p Hp. apply Hp.
  - intros t p p1 n1 Hp Hn.
    eapply centering_feasible with (c := c); eassumption.
  - split; assumption.
Qed.

(** ** The closures of a stage and the formulas of the specification *)






Lemma meq_sym (M N : matrix) : meq M N -> meq N M.
Proof. induction 1; constructor; auto. apply veq_sym. assumption. Qed.



(** Lists built over the indices [0 .. n-1]. *)





Lemma map_seq_veq (F G : nat -> Q) (l : list nat) :
  (forall j, F j == G j) -> veq (map F l) (map G l).
Proof. intros H. induction l; simpl; constructor; auto. Qed.


Lemma map_seq_meq (F G : nat -> nat -> Q) (l l' : list nat) :
  (forall j k, F j k == G j k) ->
  meq (map (fun j => map (F j) l) l') (map (fun j => map (G j) l) l').
Proof.
  intros H. induction l'; simpl; constructor; auto.
  apply map_seq_veq. intros k. apply H.
Qed.

Section Formulas.
Variable x : vec.


End Formulas.

(** *** The diagonal form of the Hessian *)

















(** ** The store: what a call changes *)

Lemma update_length (l : loc) (a : ndarray) (h : heap) :
  length (update l a h) = length h.
Proof.
  revert l. induction h as [| a' h IH]; intros [| l]; simpl; auto.
Qed.

Lemma nth_error_update_neq (l l' : loc) (a : ndarray) (h : heap) :
  l' <> l -> nth_error (update l a h) l' = nth_error h l'.
Proof.
  revert l l'. induction h as [| a' h IH]; intros [| l] [| l'] Hne; simpl;
    auto; try congruence.
Qed.

Lemma nth_error_update_eq (l : loc) (a : ndarray) (h : heap) :
  (l < length h)%nat -> nth_error (update l a h) l = Some a.
Proof.
  revert l. induction h as [| a' h IH]; intros [| l] Hl; simpl in *;
    try lia; auto.
  apply IH. lia.
Qed.

Lemma frame_refl (x : loc) (h : heap) : frame x h h.
Proof. split; auto. Qed.

Lemma frame_trans (x : loc) (h1 h2 h3 : heap) :
  frame x h1 h2 -> frame x h2 h3 -> frame x h1 h3.
Proof.
  intros [Hl12 H12] [Hl23 H23]. split; [lia |].
  intros l Hl Hne. rewrite H23 by (auto; lia). apply H12; assumption.
Qed.

Lemma frame_get1 (x : loc) (h h' : heap) (l : loc) :
  frame x h h' -> (l < length h)%nat -> l <> x -> get1 h' l = get1 h l.
Proof. intros [_ H] Hl Hne. unfold get1. rewrite H by assumption. reflexivity. Qed.

Lemma frame_get2 (x : loc) (h h' : heap) (l : loc) :
  frame x h h' -> (l < length h)%nat -> l <> x -> get2 h' l = get2 h l.
Proof. intros [_ H] Hl Hne. unfold get2. rewrite H by assumption. reflexivity. Qed.

Lemma frame_iadd (x : loc) (v : vec) (h : heap) : frame x h (iadd x v h).
Proof.
  unfold iadd. split; [rewrite update_length; lia |].
  intros l _ Hne. apply nth_error_update_neq. exact Hne.
Qed.

Lemma get1_iadd (x : loc) (v : vec) (h : heap) :
  (x < length h)%nat -> get1 (iadd x v h) x = vadd (get1 h x) v.
Proof.
  intros Hx. unfold iadd, get1 at 1.
  rewrite nth_error_update_eq by exact Hx. reflexivity.
Qed.

Lemma iadd_length (x : loc) (v : vec) (h : heap) :
  length (iadd x v h) = length h.
Proof. apply update_length. Qed.

Lemma frame_alloc (x : loc) (a : ndarray) (h : heap) : frame x h (h ++ [a]).
Proof.
  split; [rewrite length_app; simpl; lia |].
  intros l Hl _. apply nth_error_app1. exact Hl.
Qed.

Lemma get1_alloc_old (a : ndarray) (h : heap) (l : loc) :
  (l < length h)%nat -> get1 (h ++ [a]) l = get1 h l.
Proof. intros Hl. unfold get1. rewrite nth_error_app1 by exact Hl. reflexivity. Qed.

Lemma get1_alloc_new (v : vec) (h : heap) :
  get1 (h ++ [Arr1 v]) (length h) = v.
Proof.
  unfold get1. rewrite nth_error_app2 by lia.
  rewrite Nat.sub_diag. reflexivity.
Qed.

Lemma settled_frame (x : loc) (h h' : heap) (l : loc) :
  frame x h h' -> settled x h l -> settled x h' l.
Proof. intros [Hlen _] [Hl Hne]. split; [lia | exact Hne]. Qed.

Lemma map_get1_frame (x : loc) (h h' : heap) (ls : list loc) :
  frame x h h' -> Forall (settled x h) ls ->
  map (get1 h') ls = map (get1 h) ls.
Proof.
  intros Hf. induction 1 as [| l ls [Hl Hne] _ IH]; simpl; [reflexivity |].
  rewrite IH. f_equal. eapply frame_get1; eassumption.
Qed.

(** *** The line search depends on its closures through their values *)

Section LineSearchExt.
Variables f f' : vec -> Q.
Variables dom dom' : vec -> bool.
Variables df df' : vec -> vec.
Hypothesis f_ext : forall y, f y = f' y.
Hypothesis dom_ext : forall y, dom y = dom' y.
Hypothesis df_ext : forall y, df y = df' y.
Variables x dx : vec.
Variables alpha beta : Q.

Lemma domain_loop_ext (fuel : nat) (t : Q) :
  domain_loop dom x dx beta fuel t = domain_loop dom' x dx beta fuel t.
Proof.
  revert t. induction fuel as [| fuel IH]; intros t; simpl; [reflexivity |].
  rewrite dom_ext, IH. reflexivity.
Qed.

Lemma armijo_loop_ext (fuel : nat) (t : Q) :
  armijo_loop f df x dx alpha beta fuel t
  = armijo_loop f' df' x dx alpha beta fuel t.
Proof.
  revert t. induction fuel as [| fuel IH]; intros t; simpl; [reflexivity |].
  rewrite !f_ext, df_ext, IH. reflexivity.
Qed.

Lemma backtracking_line_search_ext (fuel : nat) :
  backtracking_line_search f dom df x dx alpha beta fuel
  = backtracking_line_search f' dom' df' x dx alpha beta fuel.
Proof.
  unfold backtracking_line_search. rewrite domain_loop_ext.
  destruct (domain_loop dom' x dx beta fuel 1); simpl; auto.
  apply armijo_loop_ext.
Qed.
End LineSearchExt.

(** *** [newtons_method] over the store *)

Section NewtonStore.
Context {L : NumLib}.
Variable f : heap -> vec -> Q.
Variable in_domain_of_f : heap -> vec -> bool.
Variable df : heap -> vec -> vec.
Variable ddf : heap -> vec -> matrix.
Variable eps : Q.
Variable lfuel : nat.
(** The closures as functions of values. *)
Variable f_v : vec -> Q.
Variable in_domain_v : vec -> bool.
Variable df_v : vec -> vec.
Variable ddf_v : vec -> matrix.
(** The array the call works on, and the store at the call. *)
Variable x : loc.
Variable h0 : heap.

Hypothesis x_valid : (x < length h0)%nat.
(** What the closures read is not the array [x]. *)
Hypothesis closures_frame :
  forall h, frame x h0 h ->
    (forall y, f h y = f_v y) /\
    (forall y, in_domain_of_f h y = in_domain_v y) /\
    (forall y, df h y = df_v y) /\
    (forall y, ddf h y = ddf_v y).

Lemma newton_loop_h_frame (fuel : nat) :
  forall (h : heap) (steps : list loc) (x' : loc) (steps' : list loc)
         (h' : heap),
    frame x h0 h ->
    newton_loop_h f in_domain_of_f df ddf eps lfuel fuel x steps h
    = Ok (x', steps', h') ->
    x' = x /\ frame x h h' /\
    exists k, steps' = steps ++ seq (length h) k /\
              length h' = (length h + k)%nat.
Proof.
  induction fuel as [| fuel IH]; intros h steps x' steps' h' Hf; simpl;
    [discriminate |].
  destruct (linalg_solve _ _) as [y |]; [| discriminate].
  destruct (Qle_bool _ _).
  - intros [= <- <- <-]. split; [reflexivity |].
    split; [apply frame_refl |].
    exists O. simpl. rewrite app_nil_r. split; [reflexivity | lia].
  - intros H. apply bind_Ok in H. destruct H as (t & _ & H).
    unfold np_copy in H.
    set (h1 := iadd x (vscale t (vneg y)) h) in *.
    assert (Hlen1 : length h1 = length h) by apply iadd_length.
    assert (Hf1 : frame x h h1) by apply frame_iadd.
    assert (Hf2 : frame x h1 (h1 ++ [Arr1 (get1 h1 x)])) by apply frame_alloc.
    apply IH in H;
      [| eapply frame_trans; [exact Hf |];
         eapply frame_trans; eassumption].
    destruct H as (-> & Hf' & k & -> & Hlen').
    split; [reflexivity |].
    split; [eapply frame_trans; [exact Hf1 |];
            eapply frame_trans; eassumption |].
    exists (S k). rewrite length_app in *. simpl in *.
    rewrite <- app_assoc. simpl. rewrite Hlen1 in *.
    split; [| lia]. do 3 f_equal. lia.
Qed.

Lemma newton_loop_h_read (fuel : nat) :
  forall (h : heap) (steps : list loc),
    frame x h0 h ->
    Forall (settled x h) steps ->
    read_newton
      (newton_loop_h f in_domain_of_f df ddf eps lfuel fuel x steps h)
    = newton_loop f_v in_domain_v df_v ddf_v eps lfuel fuel
        (get1 h x) (map (get1 h) steps).
Proof.
  induction fuel as [| fuel IH]; intros h steps Hf Hsteps; simpl;
    [reflexivity |].
  destruct (closures_frame Hf) as (Ef & Edom & Edf & Eddf).
  rewrite Eddf, Edf.
  destruct (linalg_solve _ _) as [y |]; [| reflexivity].
  destruct (Qle_bool _ _); [reflexivity |].
  rewrite (backtracking_line_search_ext (f h) f_v (in_domain_of_f h)
             in_domain_v (df h) df_v Ef Edom Edf).
  destruct (backtracking_line_search _ _ _ _ _ _ _ _) as [t | e |];
    simpl; try reflexivity.
  unfold np_copy.
  set (h1 := iadd x (vscale t (vneg y)) h) in *.
  assert (Hx : (x < length h)%nat) by (destruct Hf; lia).
  assert (Hlen1 : length h1 = length h) by apply iadd_length.
  assert (Hf1 : frame x h h1) by apply frame_iadd.
  assert (Hf2 : frame x h1 (h1 ++ [Arr1 (get1 h1 x)])) by apply frame_alloc.
  assert (Hf12 : frame x h (h1 ++ [Arr1 (get1 h1 x)]))
    by (eapply frame_trans; eassumption).
  rewrite IH.
  - rewrite map_app. simpl.
    rewrite (map_get1_frame Hf12 Hsteps).
    rewrite get1_alloc_new, get1_alloc_old by lia.
    unfold h1. rewrite get1_iadd by exact Hx. reflexivity.
  - eapply frame_trans; eassumption.
  - apply Forall_app. split.
    + eapply Forall_impl; [| exact Hsteps].
      intros l. apply settled_frame. exact Hf12.
    + constructor; [| constructor].
      split; [rewrite length_app; simpl; lia | lia].
Qed.
End NewtonStore.

Section NewtonsMethodStore.
Context {L : NumLib}.
Variable f : heap -> vec -> Q.
Variable in_domain_of_f : heap -> vec -> bool.
Variable df : heap -> vec -> vec.
Variable ddf : heap -> vec -> matrix.
Variable eps : Q.
Variable lfuel : nat.
Variable f_v : vec -> Q.
Variable in_domain_v : vec -> bool.
Variable df_v : vec -> vec.
Variable ddf_v : vec -> matrix.
Variable x : loc.
Variable h0 : heap.

Hypothesis x_valid : (x < length h0)%nat.
Hypothesis closures_frame :
  forall h, frame x h0 h ->
    (forall y, f h y = f_v y) /\
    (forall y, in_domain_of_f h y = in_domain_v y) /\
    (forall y, df h y = df_v y) /\
    (forall y, ddf h y = ddf_v y).

(** The call returns the location it was given; it has overwritten that
    array only, and the inner trace is made of the arrays it allocated. *)
Lemma newtons_method_h_frame (fuel : nat) (h : heap) (x' : loc)
    (steps' : list loc) (h' : heap) :
  frame x h0 h ->
  newtons_method_h f in_domain_of_f df ddf eps lfuel fuel x h
  = Ok (x', steps', h') ->
  x' = x /\ frame x h h' /\
  exists k, steps' = seq (length h) (S k) /\
            length h' = (length h + S k)%nat.
Proof.
  intros Hf H. unfold newtons_method_h, np_copy in H.
  assert (Hf1 : frame x h (h ++ [Arr1 (get1 h x)])) by apply frame_alloc.
  eapply newton_loop_h_frame in H; eauto;
    [| eapply frame_trans; eassumption].
  destruct H as (-> & Hf' & k & -> & Hlen).
  rewrite length_app in *. simpl in *.
  split; [reflexivity |].
  split; [eapply frame_trans; eassumption |].
  exists k. split; [| lia]. simpl. do 2 f_equal. lia.
Qed.

Lemma newtons_method_h_read (fuel : nat) (h : heap) :
  frame x h0 h ->
  read_newton (newtons_method_h f in_domain_of_f df ddf eps lfuel fuel x h)
  = newtons_method f_v in_domain_v df_v ddf_v eps lfuel fuel (get1 h x).
Proof.
  intros Hf. unfold newtons_method_h, newtons_method, np_copy.
  assert (Hx : (x < length h)%nat) by (destruct Hf; lia).
  assert (Hf1 : frame x h (h ++ [Arr1 (get1 h x)])) by apply frame_alloc.
  erewrite newton_loop_h_read with (h0 := h0) (f_v := f_v)
    (in_domain_v := in_domain_v) (df_v := df_v) (ddf_v := ddf_v).
  - simpl. rewrite get1_alloc_new, get1_alloc_old by exact Hx. reflexivity.
  - exact x_valid.
  - exact closures_frame.
  - eapply frame_trans; eassumption.
  - constructor; [| constructor].
    split; [rewrite length_app; simpl; lia | lia].
Qed.
End NewtonsMethodStore.

(** *** [barrier_method] over the store *)

Lemma map_map_get1_frame (x : loc) (h h' : heap) (lss : list (list loc)) :
  frame x h h' -> Forall (Forall (settled x h)) lss ->
  map (map (get1 h')) lss = map (map (get1 h)) lss.
Proof.
  intros Hf. induction 1 as [| ls lss Hls _ IH]; simpl; [reflexivity |].
  rewrite IH. f_equal. eapply map_get1_frame; eassumption.
Qed.

Lemma settled_seq (x : loc) (h : heap) (a k : nat) :
  (x < a)%nat -> (a + k <= length h)%nat ->
  Forall (settled x h) (seq a k).
Proof.
  intros Hx Hk. apply Forall_forall. intros l Hl. apply in_seq in Hl.
  split; lia.
Qed.

Section BarrierStore.
Context {L : NumLib}.
(** The caller's arrays, the working array, and the store when the
    working array has been allocated. *)
Variables c A b : loc.
Variable x : loc.
Variable hb : heap.
Variables eps mu : Q.
Variable phase_one : bool.
Variables nfuel lfuel : nat.

Hypothesis x_valid : (x < length hb)%nat.
Hypothesis c_settled : settled x hb c.
Hypothesis A_settled : settled x hb A.
Hypothesis b_settled : settled x hb b.

Let c_v : vec := get1 hb c.
Let A_v : matrix := get2 hb A.
Let b_v : vec := get1 hb b.

Lemma barrier_closures_frame (t : Q) (h : heap) :
  frame x hb h ->
  (forall y, barrier_f (get1 h c) (get2 h A) (get1 h b) t y
             = barrier_f c_v A_v b_v t y) /\
  (forall y, barrier_in_domain (get2 h A) (get1 h b) y
             = barrier_in_domain A_v b_v y) /\
  (forall y, barrier_df (get1 h c) (get2 h A) (get1 h b) t y
             = barrier_df c_v A_v b_v t y) /\
  (forall y, barrier_ddf (get2 h A) (get1 h b) y = barrier_ddf A_v b_v y).
Proof.
  intros Hf. subst c_v A_v b_v.
  destruct c_settled as [Hc Hcx], A_settled as [HA HAx],
           b_settled as [Hb Hbx].
  rewrite (frame_get1 Hf Hc Hcx), (frame_get2 Hf HA HAx),
          (frame_get1 Hf Hb Hbx).
  repeat split; reflexivity.
Qed.

Lemma barrier_loop_h_frame (fuel : nat) :
  forall (h : heap) (steps : list loc) (newt_steps : list (list loc))
         (t : Q) (x' : loc) (steps' : list loc)
         (newt_steps' : list (list loc)) (h' : heap),
    frame x hb h ->
    barrier_loop_h c A b eps mu phase_one nfuel lfuel fuel (nrows A_v) x
      steps newt_steps t h
    = Ok (x', steps', newt_steps', h') ->
    x' = x /\ frame x h h' /\
    exists xs ns,
      steps' = steps ++ xs /\ newt_steps' = newt_steps ++ ns /\
      Permutation (xs ++ concat ns)
                  (seq (length h) (length h' - length h)).
Proof.
  induction fuel as [| fuel IH];
    intros h steps newt_steps t x' steps' newt_steps' h' Hf; simpl;
    [discriminate |].
  intros H. apply bind_Ok in H. destruct H as ([|] & _ & H).
  - apply bind_Ok in H. destruct H as ([[x1 n1] h1] & Hn & H).
    eapply newtons_method_h_frame with (h0 := hb) in Hn;
      [| exact x_valid | exact Hf].
    destruct Hn as (-> & Hf1 & k & -> & Hlen1).
    unfold np_copy in H.
    assert (Hf2 : frame x h1 (h1 ++ [Arr1 (get1 h1 x)])) by apply frame_alloc.
    assert (Hf12 : frame x h (h1 ++ [Arr1 (get1 h1 x)]))
      by (eapply frame_trans; eassumption).
    apply IH in H; [| eapply frame_trans; eassumption].
    destruct H as (-> & Hf' & xs & ns & -> & -> & Hperm).
    split; [reflexivity |].
    split; [eapply frame_trans; eassumption |].
    exists (length h1 :: xs), (seq (length h) (S k) :: ns).
    rewrite <- !app_assoc. split; [reflexivity |]. split; [reflexivity |].
    destruct Hf' as [Hlen' _]. rewrite length_app in *. simpl length in *.
    replace (length h' - length h)%nat
      with (S k + (1 + (length h' - (length h1 + 1))))%nat by lia.
    rewrite seq_app, seq_app.
    replace (length h + S k)%nat with (length h1) by lia.
    change (concat (seq (length h) (S k) :: ns))
      with (seq (length h) (S k) ++ concat ns).
    change (seq (length h1) 1) with [length h1].
    replace (length h1 + 1)%nat with (S (length h1)) in * by lia.
    replace (length h1 + 1)%nat with (S (length h1)) by lia.
    eapply Permutation_trans;
      [| apply Permutation_middle].
    constructor.
    eapply Permutation_trans; [apply Permutation_app_swap_app |].
    apply Permutation_app_head. exact Hperm.
  - injection H as <- <- <- <-.
    split; [reflexivity |]. split; [apply frame_refl |].
    exists [], []. rewrite !app_nil_r, Nat.sub_diag.
    repeat split. constructor.
Qed.

Lemma loop_condition_h_read (m : nat) (t : Q) (h : heap) :
  m = nrows A_v ->
  loop_condition_h eps phase_one m x t h
  = loop_condition A_v eps phase_one (get1 h x) t.
Proof. intros ->. reflexivity. Qed.

Lemma barrier_loop_h_read (fuel : nat) :
  forall (h : heap) (steps : list loc) (newt_steps : list (list loc))
         (t : Q),
    frame x hb h ->
    Forall (settled x h) steps ->
    Forall (Forall (settled x h)) newt_steps ->
    read_result
      (barrier_loop_h c A b eps mu phase_one nfuel lfuel fuel (nrows A_v) x
         steps newt_steps t h)
    = barrier_loop c_v A_v b_v eps mu phase_one nfuel lfuel fuel
        (get1 h x) (map (get1 h) steps) (map (map (get1 h)) newt_steps) t.
Proof.
  induction fuel as [| fuel IH]; intros h steps newt_steps t Hf Hs Hn;
    simpl; [reflexivity |].
  rewrite loop_condition_h_read by reflexivity.
  destruct (loop_condition A_v eps phase_one (get1 h x) t) as [[|] | e |];
    simpl; try reflexivity.
  pose proof (@newtons_method_h_read L _ _ _ _ eps_default lfuel _ _ _ _
                x hb x_valid (barrier_closures_frame t) nfuel h Hf) as Hread.
  destruct (newtons_method_h _ _ _ _ _ _ _ _ _) as [[[x1 n1] h1] | e |] eqn:Hrun;
    simpl in Hread; rewrite <- Hread; simpl; try reflexivity.
  eapply newtons_method_h_frame with (h0 := hb) in Hrun;
    [| exact x_valid | exact Hf].
  destruct Hrun as (-> & Hf1 & k & -> & Hlen1).
  unfold np_copy.
  assert (Hx : (x < length h)%nat) by (destruct Hf; lia).
  assert (Hx1 : (x < length h1)%nat) by lia.
  assert (Hf2 : frame x h1 (h1 ++ [Arr1 (get1 h1 x)])) by apply frame_alloc.
  assert (Hf12 : frame x h (h1 ++ [Arr1 (get1 h1 x)]))
    by (eapply frame_trans; eassumption).
  assert (Hn1 : Forall (settled x h1) (seq (length h) (S k)))
    by (apply settled_seq; lia).
  rewrite IH.
  - rewrite !map_app. cbn [map].
    rewrite (map_get1_frame Hf12 Hs), (map_map_get1_frame Hf12 Hn).
    rewrite (map_get1_frame Hf2 Hn1).
    rewrite get1_alloc_new, get1_alloc_old by exact Hx1. reflexivity.
  - eapply frame_trans; eassumption.
  - apply Forall_app. split.
    + eapply Forall_impl; [| exact Hs].
      intros l. apply settled_frame. exact Hf12.
    + constructor; [| constructor].
      split; [rewrite length_app; simpl; lia | lia].
  - apply Forall_app. split.
    + eapply Forall_impl; [| exact Hn]. intros ls Hls.
      eapply Forall_impl; [| exact Hls].
      intros l. apply settled_frame. exact Hf12.
    + constructor; [| constructor].
      eapply Forall_impl; [| exact Hn1].
      intros l. apply settled_frame. exact Hf2.
Qed.
End BarrierStore.

Lemma get2_alloc_old (a : ndarray) (h : heap) (l : loc) :
  (l < length h)%nat -> get2 (h ++ [a]) l = get2 h l.
Proof. intros Hl. unfold get2. rewrite nth_error_app1 by exact Hl. reflexivity. Qed.

(** C10: a call of [barrier_method] leaves every array that existed
    before it as it was, among them the caller's [c], [A], [b] and [x_0].
    The returned array and the entries of the two traces are the arrays
    the call allocated, each of them referred to once: no entry is an
    alias of another, of the iterate or of an argument; and at the return
    the entries hold the values the iterate had when they were recorded,
    those of the run on values. *)
Theorem barrier_method_frame
    (L : NumLib) (c A b x_0 : loc) (eps mu : Q) (phase_one : bool)
    (nfuel lfuel fuel : nat) (t0 : Q) (h : heap) :
  (c < length h)%nat -> (A < length h)%nat -> (b < length h)%nat ->
  (x_0 < length h)%nat ->
  read_result
    (barrier_method_h c A b x_0 eps mu phase_one nfuel lfuel fuel t0 h)
  = barrier_method (get1 h c) (get2 h A) (get1 h b) eps mu phase_one
      nfuel lfuel fuel (get1 h x_0) t0 /\
  forall (x : loc) (steps : list loc) (newt_steps : list (list loc))
         (h' : heap),
    barrier_method_h c A b x_0 eps mu phase_one nfuel lfuel fuel t0 h
    = Ok (x, steps, newt_steps, h') ->
    (forall l, (l < length h)%nat -> nth_error h' l = nth_error h l) /\
    Permutation (x :: steps ++ concat newt_steps)
                (seq (length h) (length h' - length h)) /\
    NoDup (x :: steps ++ concat newt_steps) /\
    Forall (fun l => (length h <= l)%nat) (x :: steps ++ concat newt_steps).
Proof.
  intros Hc HA Hb Hx0.
  unfold barrier_method_h, barrier_method, np_copy. cbv beta iota.
  set (x := length h).
  set (hx := h ++ [Arr1 (get1 h x_0)]).
  set (h2 := hx ++ [Arr1 (get1 hx x)]).
  assert (Hlenx : length hx = S x)
    by (unfold hx; rewrite length_app; simpl; lia).
  assert (Hlen2 : length h2 = S (S x))
    by (unfold h2; rewrite length_app; simpl; lia).
  assert (Hxv : (x < length hx)%nat) by lia.
  assert (Hcs : settled x hx c) by (split; lia).
  assert (HAs : settled x hx A) by (split; lia).
  assert (Hbs : settled x hx b) by (split; lia).
  assert (Hf2 : frame x hx h2) by apply frame_alloc.
  assert (Ec : get1 hx c = get1 h c) by (apply get1_alloc_old; exact Hc).
  assert (EA : get2 hx A = get2 h A) by (apply get2_alloc_old; exact HA).
  assert (Eb : get1 hx b = get1 h b) by (apply get1_alloc_old; exact Hb).
  assert (Ex : get1 hx x = get1 h x_0) by apply get1_alloc_new.
  rewrite <- EA. split.
  - etransitivity.
    { apply (@barrier_loop_h_read L c A b x hx eps mu phase_one nfuel lfuel
               Hxv Hcs HAs Hbs fuel h2 [length hx] [] t0 Hf2).
      - constructor; [| constructor]. split; lia.
      - constructor. }
    rewrite Ec, Eb. simpl.
    replace (get1 h2 (length hx)) with (get1 hx x)
      by (symmetry; apply get1_alloc_new).
    replace (get1 h2 x) with (get1 hx x)
      by (symmetry; apply get1_alloc_old; exact Hxv).
    rewrite Ex. reflexivity.
  - intros x' steps newt_steps h' Hrun.
    apply (@barrier_loop_h_frame L c A b x hx eps mu phase_one nfuel lfuel
             Hxv fuel h2 [length hx] [] t0 x' steps newt_steps h' Hf2) in Hrun.
    destruct Hrun as (-> & [Hlen' Hfr] & xs & ns & -> & -> & Hperm).
    assert (Hsame : forall l, (l < length h)%nat ->
                              nth_error h' l = nth_error h l).
    { intros l Hl. fold x in Hl. rewrite Hfr by lia.
      unfold h2, hx. rewrite !nth_error_app1; [reflexivity | exact Hl |].
      rewrite length_app. simpl. fold x. lia. }
    assert (Hall : Permutation (x :: ([length hx] ++ xs) ++ concat ns)
                     (seq (length h) (length h' - length h))).
    { fold x. rewrite Hlen2 in *. rewrite Hlenx.
      replace (length h' - x)%nat with (S (S (length h' - S (S x)))) by lia.
      simpl. do 2 constructor. exact Hperm. }
    split; [exact Hsame |]. split; [exact Hall |]. split.
    + eapply Permutation_NoDup; [apply Permutation_sym; exact Hall |].
      apply seq_NoDup.
    + apply Forall_forall. intros l Hl.
      eapply Permutation_in in Hl; [| exact Hall].
      apply in_seq in Hl. lia.
Qed.

(** * The theorems at concrete inputs *)

(** The notebook's call [barrier_method(c, A, b, x_0, 1e-5, 1.3, 0.1)]:
    its starting point is strictly feasible, and its loop test passes at
    [0.1 * 1.3^j] for [j < 59] and fails at [0.1 * 1.3^59]. *)
Example polygon_x_0_strictly_feasible :
  strictly_feasible polygon_A polygon_b polygon_x_0.
Proof. repeat constructor. Qed.

Example polygon_loop_tests :
  loop_condition polygon_A (1 # 100000) false polygon_x_0
    ((1 # 10) * (13 # 10) ^ 59) = Ok false /\
  forall j, (j < 59)%nat ->
    loop_condition polygon_A (1 # 100000) false polygon_x_0
      ((1 # 10) * (13 # 10) ^ Z.of_nat j) = Ok true.
Proof.
  split; [vm_compute; reflexivity |].
  assert (H : forallb
                (fun j =>
                   match loop_condition polygon_A (1 # 100000) false
                           polygon_x_0 ((1 # 10) * (13 # 10) ^ Z.of_nat j) with
                   | Ok true => true
                   | _ => false
                   end) (seq 0 59) = true) by (vm_compute; reflexivity).
  intros j Hj. rewrite forallb_forall in H.
  specialize (H j ltac:(apply in_seq; lia)).
  destruct (loop_condition _ _ _ _ _) as [[|] | |]; try discriminate.
  reflexivity.
Qed.

(** A quadratic: from [x = 0] Newton's method reaches the minimiser of
    [(x - 1)²] with one full step, and stops at the next test. *)
Example newton_quadratic :
  exists x1 : Q,
    newtons_method (L := small_lib)
      (fun y => (nth 0 y 0 - 1) * (nth 0 y 0 - 1)) (fun _ => true)
      (fun y => [2 * (nth 0 y 0 - 1)]) (fun _ => [[2]])
      eps_default 5 5 [0]
    = Ok ([x1], [[0]; [x1]]) /\ x1 == 1.
Proof.
  eexists. split; [vm_compute; reflexivity | reflexivity].
Qed.

(** On the interval, with [eps = 5], [mu = 2] and [t0 = 0.1], the run has
    three stages. *)
Lemma barrier_stage_count_exact_run :
  exists k : nat,
    inject_Z (Z.of_nat (nrows interval_A)) / ((1 # 10) * 2 ^ Z.of_nat k) < 5 /\
    (forall j, (j < k)%nat ->
       ~ inject_Z (Z.of_nat (nrows interval_A)) / ((1 # 10) * 2 ^ Z.of_nat j) < 5) /\
    forall fuel, (k < fuel)%nat ->
      exists x xs ns,
        barrier_method (L := small_lib) interval_c interval_A interval_b
          5 2 false 5 5 fuel [0] (1 # 10)
        = Ok (x, [0] :: xs, ns) /\
        barrier_stages (L := small_lib) interval_c interval_A interval_b
          5 2 false 5 5 k [0] (1 # 10) xs ns x /\
        length xs = k /\ length ns = k.
Proof.
  apply (@barrier_stage_count_exact small_lib interval_c interval_A interval_b
           5 2 5 5 [0] (1 # 10)).
  - reflexivity.
  - reflexivity.
  - reflexivity.
  - intros k Hk.
    destruct k as [| [| [| [| k]]]].
    + vm_compute. exact I.
    + vm_compute. exact I.
    + vm_compute. exact I.
    + vm_compute. exact I.
    + exfalso. specialize (Hk 3%nat ltac:(lia)).
      vm_compute in Hk. apply Hk. reflexivity.
Defined.


(** The run on the interval stays inside it. *)
Lemma iterates_strictly_feasible_witness :
  exists (x : vec) (steps : list vec) (newt_steps : list (list vec)),
    barrier_method (L := small_lib) interval_c interval_A interval_b
      5 2 false 5 5 5 [0] (1 # 10)
    = Ok (x, steps, newt_steps) /\
    strictly_feasible interval_A interval_b x /\
    Forall (strictly_feasible interval_A interval_b) steps /\
    Forall (Forall (strictly_feasible interval_A interval_b)) newt_steps.
Proof.
  do 3 eexists. split; [vm_compute; reflexivity |].
  apply (@iterates_strictly_feasible small_lib small_lib_spec interval_c
           interval_A interval_b 5 2 false 5 5 5 [0] (1 # 10)).
  - reflexivity.
  - reflexivity.
  - repeat constructor.
  - vm_compute. reflexivity.
Defined.

(** An infeasible start with a test that fails at once. *)
Lemma barrier_method_checks_nothing_witness :
  barrier_method (L := small_lib) [0] [[1]; [-1]] [-1; -1] 1 2 false 5 5 1
    [0] 4
  = Ok ([0], [[0]], []).
Proof.
  apply (@barrier_method_checks_nothing small_lib [0] [[1]; [-1]] [-1; -1]
           1 2 5 5 O [0] 4).
  - discriminate.
  - reflexivity.
Defined.

(** The outer trace of the run on the interval. *)
Lemma outer_trace_shape_witness :
  exists (x : vec) (steps : list vec) (newt_steps : list (list vec)),
    barrier_method (L := small_lib) interval_c interval_A interval_b
      5 2 false 5 5 5 [0] (1 # 10)
    = Ok (x, steps, newt_steps) /\
    exists (k : nat) (xs : list vec),
      barrier_stages (L := small_lib) interval_c interval_A interval_b
        5 2 false 5 5 k [0] (1 # 10) xs newt_steps x /\
      steps = [0] :: xs /\
      length xs = k /\
      length newt_steps = k /\
      length steps = S k /\
      Forall (fun p => length p = ncols interval_A) steps.
Proof.
  do 3 eexists. split; [vm_compute; reflexivity |].
  apply (@outer_trace_shape small_lib small_lib_spec interval_c interval_A
           interval_b 5 2 false 5 5 5 [0] (1 # 10)).
  - reflexivity.
  - reflexivity.
  - vm_compute. reflexivity.
Defined.

(** A line search on the interval along a direction that leaves it: the
    first loop shrinks the step five times, the second twice. *)
Lemma line_search_evals_in_domain_witness :
  exists (t : Q) (evals : list vec),
    backtracking_line_search_evals
      (barrier_f (L := small_lib) interval_c interval_A interval_b 1)
      (barrier_in_domain interval_A interval_b)
      (barrier_df interval_c interval_A interval_b 1)
      [0] [-3] alpha_default beta_default 8
    = Ok (t, evals) /\
    length evals = 6%nat /\
    Forall (fun y => barrier_in_domain interval_A interval_b y = true) evals.
Proof.
  do 2 eexists. split; [vm_compute; reflexivity |].
  split; [reflexivity |].
  eapply (@line_search_evals_in_domain
           (barrier_f (L := small_lib) interval_c interval_A interval_b 1)
           (barrier_in_domain interval_A interval_b)
           (barrier_df interval_c interval_A interval_b 1)
           [0] [-3] alpha_default beta_default 8).
  - reflexivity.
  - intros s Hs. apply barrier_in_domain_shrink.
    + reflexivity.
    + apply beta_default_range.
    + reflexivity.
    + exact Hs.
  - vm_compute. reflexivity.
Defined.

(** A run with [phase_one] set on the half-line, from [s = 0.1]: the
    second stage brings [s] below zero. *)
Lemma phase_one_stopping_rule_witness :
  exists (x : vec) (steps : list vec) (newt_steps : list (list vec)),
    barrier_method (L := small_lib) halfline_c halfline_A halfline_b
      1 (121 # 100) true 5 5 5 [1 # 10] (10 # 11)
    = Ok (x, steps, newt_steps) /\
    length steps = 3%nat /\
    (exists s, last_coord x = Some s /\ s <= 0) /\
    (exists pre : list vec,
        steps = pre ++ [x] /\
        Forall (fun y => exists s, last_coord y = Some s /\ 0 < s) pre).
Proof.
  do 3 eexists. split; [vm_compute; reflexivity |].
  split; [reflexivity |].
  destruct (@phase_one_stopping_rule small_lib halfline_c halfline_A
              halfline_b 1 (121 # 100) 5 5 5 [1 # 10] (10 # 11) _ _ _
              ltac:(vm_compute; reflexivity)) as (Hx & Hpre & _).
  split; assumption.
Defined.

(** The run on the interval over a store of four arrays. *)
Lemma barrier_method_frame_witness :
  read_result
    (barrier_method_h (L := small_lib) 0%nat 1%nat 2%nat 3%nat 5 2 false
       5 5 5 (1 # 10) interval_store)
  = barrier_method (L := small_lib) interval_c interval_A interval_b
      5 2 false 5 5 5 [0] (1 # 10) /\
  exists (x : loc) (steps : list loc) (newt_steps : list (list loc))
         (h' : heap),
    barrier_method_h (L := small_lib) 0%nat 1%nat 2%nat 3%nat 5 2 false
      5 5 5 (1 # 10) interval_store
    = Ok (x, steps, newt_steps, h') /\
    length h' = 15%nat /\
    (forall l, (l < 4)%nat -> nth_error h' l = nth_error interval_store l) /\
    NoDup (x :: steps ++ concat newt_steps).
Proof.
  assert (H0 : (0 < length interval_store)%nat) by (simpl; lia).
  assert (H1 : (1 < length interval_store)%nat) by (simpl; lia).
  assert (H2 : (2 < length interval_store)%nat) by (simpl; lia).
  assert (H3 : (3 < length interval_store)%nat) by (simpl; lia).
  destruct (@barrier_method_frame small_lib 0%nat 1%nat 2%nat 3%nat 5 2 false
              5 5 5 (1 # 10) interval_store H0 H1 H2 H3)
    as [Hread Hframe].
  split; [exact Hread |].
  do 4 eexists. split; [vm_compute; reflexivity |].
  split; [reflexivity |].
  destruct (Hframe _ _ _ _ ltac:(vm_compute; reflexivity))
    as (Hsame & _ & Hnodup & _).
  split; assumption.
Defined.

(** * Further properties *)

(** ** The line search *)

Lemma step_at_succ (beta : Q) (k : nat) :
  step_at beta (S k) = step_at beta k * beta.
Proof. reflexivity. Qed.

Lemma step_at_pos (beta : Q) (k : nat) : 0 < beta -> 0 < step_at beta k.
Proof.
  intros Hb. induction k as [| k IH]; [reflexivity |].
  rewrite step_at_succ. apply Qmult_lt_0_compat; assumption.
Qed.

Lemma step_at_le_1 (beta : Q) (k : nat) :
  0 <= beta <= 1 -> 0 <= step_at beta k <= 1.
Proof.
  intros Hb. induction k as [| k IH]; [split; discriminate |].
  rewrite step_at_succ. split.
  - apply Qmult_le_0_compat; tauto.
  - setoid_replace 1 with (1 * 1) by reflexivity.
    destruct IH as [IH0 IH1], Hb as [Hb0 Hb1].
    apply Qle_trans with (step_at beta k * 1).
    + rewrite !(Qmult_comm (step_at beta k)).
      apply Qmult_le_compat_r; assumption.
    + apply Qmult_le_compat_r; [assumption | discriminate].
Qed.

Lemma armijo_test (f : vec -> Q) (df : vec -> vec) (x dx : vec) (alpha t : Q) :
  Qlt_bool (f x + alpha * t * dot (df x) dx) (f (vadd x (vscale t dx))) = false
  <-> armijo f df x dx alpha t.
Proof. apply Qlt_bool_false_iff. Qed.

Section LineSearchSteps.
Variable f : vec -> Q.
Variable in_domain_of_f : vec -> bool.
Variable df : vec -> vec.
Variables x dx : vec.
Variables alpha beta : Q.

(** The first loop returns the first step of [1, beta, beta², ...] that
    leads into the domain. *)
Lemma domain_loop_first (fuel : nat) :
  forall (j0 : nat) (t : Q),
    domain_loop in_domain_of_f x dx beta fuel (step_at beta j0) = Ok t <->
    exists j, (j < fuel)%nat /\ t = step_at beta (j0 + j) /\
      (forall i, (i < j)%nat ->
         in_domain_of_f (vadd x (vscale (step_at beta (j0 + i)) dx)) = false) /\
      in_domain_of_f (vadd x (vscale (step_at beta (j0 + j)) dx)) = true.
Proof.
  induction fuel as [| fuel IH]; intros j0 t; simpl.
  - split; [discriminate | intros (j & Hj & _); lia].
  - destruct (in_domain_of_f (vadd x (vscale (step_at beta j0) dx))) eqn:E.
    + split.
      * intros [= <-]. exists O. rewrite Nat.add_0_r.
        repeat split; [lia | | exact E]. intros i Hi. lia.
      * intros (j & _ & -> & Hbefore & _).
        destruct j as [| j]; [rewrite Nat.add_0_r; reflexivity |].
        specialize (Hbefore O ltac:(lia)). rewrite Nat.add_0_r in Hbefore.
        congruence.
    + rewrite <- step_at_succ, IH. split.
      * intros (j & Hj & -> & Hbefore & Hat).
        exists (S j). rewrite Nat.add_succ_r.
        repeat split; [lia | | exact Hat].
        intros [| i] Hi; [rewrite Nat.add_0_r; exact E |].
        rewrite Nat.add_succ_r. apply Hbefore. lia.
      * intros (j & Hj & -> & Hbefore & Hat).
        destruct j as [| j]; [rewrite Nat.add_0_r in Hat; congruence |].
        exists j. rewrite Nat.add_succ_r in *.
        repeat split; [lia | | exact Hat].
        intros i Hi. specialize (Hbefore (S i) ltac:(lia)).
        rewrite Nat.add_succ_r in Hbefore. exact Hbefore.
Qed.

(** The second loop goes on to the first step that passes the test. *)
Lemma armijo_loop_first (fuel : nat) :
  forall (j0 : nat) (t : Q),
    armijo_loop f df x dx alpha beta fuel (step_at beta j0) = Ok t <->
    exists k, (k < fuel)%nat /\ t = step_at beta (j0 + k) /\
      (forall i, (i < k)%nat ->
         ~ armijo f df x dx alpha (step_at beta (j0 + i))) /\
      armijo f df x dx alpha (step_at beta (j0 + k)).
Proof.
  induction fuel as [| fuel IH]; intros j0 t; simpl.
  - split; [discriminate | intros (k & Hk & _); lia].
  - destruct (Qlt_bool _ _) eqn:E.
    + assert (Hnot : ~ armijo f df x dx alpha (step_at beta j0)).
      { intros Ha. apply armijo_test in Ha. congruence. }
      rewrite <- step_at_succ, IH. split.
      * intros (k & Hk & -> & Hbefore & Hat).
        exists (S k). rewrite Nat.add_succ_r.
        repeat split; [lia | | exact Hat].
        intros [| i] Hi; [rewrite Nat.add_0_r; exact Hnot |].
        rewrite Nat.add_succ_r. apply Hbefore. lia.
      * intros (k & Hk & -> & Hbefore & Hat).
        destruct k as [| k]; [rewrite Nat.add_0_r in Hat; contradiction |].
        exists k. rewrite Nat.add_succ_r in *.
        repeat split; [lia | | exact Hat].
        intros i Hi. specialize (Hbefore (S i) ltac:(lia)).
        rewrite Nat.add_succ_r in Hbefore. exact Hbefore.
    + apply armijo_test in E. split.
      * intros [= <-]. exists O. rewrite Nat.add_0_r.
        repeat split; [lia | | exact E]. intros i Hi. lia.
      * intros (k & _ & -> & Hbefore & _).
        destruct k as [| k]; [rewrite Nat.add_0_r; reflexivity |].
        specialize (Hbefore O ltac:(lia)). rewrite Nat.add_0_r in Hbefore.
        contradiction.
Qed.
End LineSearchSteps.

(** X1: [backtracking_line_search] returns [t] exactly when [t] is reached
    from 1 by [j + k] multiplications by [beta], where [j] is the first
    step of [1, beta, beta², ...] that leads into the domain and [j + k]
    the first from there on that passes the sufficient-decrease test
    (with fuel for [j] and for [k] passes through the loops). *)
Theorem line_search_first_acceptable
    (f : vec -> Q) (in_domain_of_f : vec -> bool) (df : vec -> vec)
    (x dx : vec) (alpha beta : Q) (fuel : nat) (t : Q) :
  backtracking_line_search f in_domain_of_f df x dx alpha beta fuel = Ok t <->
  exists j k,
    (j < fuel)%nat /\ (k < fuel)%nat /\ t = step_at beta (j + k) /\
    (forall i, (i < j)%nat ->
       in_domain_of_f (vadd x (vscale (step_at beta i) dx)) = false) /\
    in_domain_of_f (vadd x (vscale (step_at beta j) dx)) = true /\
    (forall i, (i < k)%nat -> ~ armijo f df x dx alpha (step_at beta (j + i))) /\
    armijo f df x dx alpha (step_at beta (j + k)).
Proof.
  unfold backtracking_line_search. split.
  - intros H. apply bind_Ok in H. destruct H as (t1 & Hdom & Harm).
    apply (domain_loop_first in_domain_of_f x dx beta fuel O) in Hdom.
    destruct Hdom as (j & Hj & -> & Hbefore & Hat). simpl in *.
    apply armijo_loop_first in Harm.
    destruct Harm as (k & Hk & -> & Hnot & Hok).
    exists j, k. repeat split; assumption.
  - intros (j & k & Hj & Hk & -> & Hbefore & Hat & Hnot & Hok).
    assert (Hdom : domain_loop in_domain_of_f x dx beta fuel (step_at beta 0)
                   = Ok (step_at beta j)).
    { apply domain_loop_first. exists j. simpl. repeat split; assumption. }
    change (step_at beta 0) with 1 in Hdom. rewrite Hdom. simpl.
    apply armijo_loop_first. exists k. repeat split; assumption.
Qed.

(** ** Newton's method: the trace *)

Lemma last_cons_indep {X : Type} (l : list X) (a d d' : X) :
  last (a :: l) d = last (a :: l) d'.
Proof.
  revert a. induction l as [| b l IH]; intros a; [reflexivity |].
  change (last (b :: l) d = last (b :: l) d'). apply IH.
Qed.

Section NewtonPath.
Context {L : NumLib}.
Variable f : vec -> Q.
Variable in_domain_of_f : vec -> bool.
Variable df : vec -> vec.
Variable ddf : vec -> matrix.
Variable eps : Q.
Variable lfuel : nat.

Let step := newton_step f in_domain_of_f df ddf eps lfuel.
Let stops := newton_stops df ddf eps.

Lemma newton_loop_path (fuel : nat) :
  forall (x : vec) (pre : list vec) (x' : vec) (steps' : list vec),
    newton_loop f in_domain_of_f df ddf eps lfuel fuel x (pre ++ [x])
    = Ok (x', steps') ->
    exists path,
      steps' = pre ++ x :: path /\
      (length path < fuel)%nat /\
      last (x :: path) x = x' /\
      consecutive step (x :: path) /\
      stops x'.
Proof.
  subst step stops.
  induction fuel as [| fuel IH]; intros x pre x' steps'; simpl;
    [discriminate |].
  destruct (linalg_solve (ddf x) (df x)) as [y |] eqn:Hsolve; [| discriminate].
  destruct (Qle_bool _ _) eqn:Htest.
  - intros [= <- <-]. exists []. simpl.
    repeat split; [lia |].
    exists y. split; [exact Hsolve |]. apply Qle_bool_iff. exact Htest.
  - intros H. apply bind_Ok in H. destruct H as (t & Hls & H).
    rewrite <- app_assoc in H. simpl in H.
    change (pre ++ [x; vadd x (vscale t (vneg y))])
      with (pre ++ [x] ++ [vadd x (vscale t (vneg y))]) in H.
    rewrite app_assoc in H. apply IH in H.
    destruct H as (path & -> & Hlen & Hlast & Hcons & Hstop).
    exists (vadd x (vscale t (vneg y)) :: path).
    rewrite <- app_assoc. simpl.
    repeat split; [lia | | | exact Hcons | exact Hstop].
    + rewrite <- Hlast. apply last_cons_indep.
    + exists y, t. repeat split; try assumption.
      intros Hle. apply Qle_bool_iff in Hle. congruence.
Qed.

End NewtonPath.

(** X4: the inner trace [newtons_method] returns starts with the point it
    was called on, ends with the point it returns, and leads from each
    entry to the next by one Newton step damped by the line search; at the
    returned point the stopping test [lambda_sq/2 <= eps] passes; there are
    at most [fuel] entries. *)
Theorem newton_trace
    (L : NumLib) (f : vec -> Q) (in_domain_of_f : vec -> bool)
    (df : vec -> vec) (ddf : vec -> matrix) (eps : Q) (lfuel fuel : nat)
    (x x' : vec) (steps : list vec) :
  newtons_method f in_domain_of_f df ddf eps lfuel fuel x = Ok (x', steps) ->
  (exists path, steps = x :: path) /\
  (length steps <= fuel)%nat /\
  last steps x = x' /\
  consecutive (newton_step f in_domain_of_f df ddf eps lfuel) steps /\
  newton_stops df ddf eps x'.
Proof.
  intros H. unfold newtons_method in H.
  apply (newton_loop_path f in_domain_of_f df ddf eps lfuel fuel x []) in H.
  destruct H as (path & -> & Hlen & Hlast & Hcons & Hstop).
  simpl app. split; [exists path; reflexivity |].
  split; [simpl; lia |]. repeat split; assumption.
Qed.

(** ** Newton's method on a stationary point *)

Lemma dot_zero_l (u v : vec) : Forall (fun a => a == 0) u -> dot u v == 0.
Proof.
  unfold dot. intros Hu. revert v.
  induction Hu as [| a u Ha _ IH]; intros [| b v]; simpl; try reflexivity.
  rewrite Ha, IH. ring.
Qed.

Lemma vneg_zero (u : vec) :
  Forall (fun a => a == 0) u -> Forall (fun a => a == 0) (vneg u).
Proof.
  induction 1 as [| a u Ha _ IH]; simpl; constructor; [| exact IH].
  rewrite Ha. reflexivity.
Qed.

Lemma newton_loop_stationary (L : NumLib) (f : vec -> Q)
    (in_domain_of_f : vec -> bool) (df : vec -> vec) (ddf : vec -> matrix)
    (eps : Q) (lfuel fuel : nat) (x y : vec) (steps : list vec) :
  0 <= eps ->
  Forall (fun a => a == 0) (df x) ->
  linalg_solve (ddf x) (df x) = Some y ->
  newton_loop f in_domain_of_f df ddf eps lfuel (S fuel) x steps
  = Ok (x, steps).
Proof.
  intros Heps Hzero Hsolve. simpl. rewrite Hsolve.
  assert (Htest : Qle_bool (dot (vneg (df x)) (vneg y) / 2) eps = true).
  { apply Qle_bool_iff. rewrite dot_zero_l by (apply vneg_zero; exact Hzero).
    setoid_replace (0 / 2) with 0 by reflexivity. exact Heps. }
  rewrite Htest. reflexivity.
Qed.

(** X7: called with [eps >= 0] on a point where the gradient is zero and
    the solver returns, [newtons_method] returns that point at once, with
    the trace [[x]]: it takes no step and makes no line search. *)
Theorem newtons_method_at_stationary_point
    (L : NumLib) (f : vec -> Q) (in_domain_of_f : vec -> bool)
    (df : vec -> vec) (ddf : vec -> matrix) (eps : Q) (lfuel fuel : nat)
    (x y : vec) :
  0 <= eps ->
  Forall (fun a => a == 0) (df x) ->
  linalg_solve (ddf x) (df x) = Some y ->
  newtons_method f in_domain_of_f df ddf eps lfuel (S fuel) x = Ok (x, [x]).
Proof.
  intros Heps Hzero Hsolve. unfold newtons_method.
  eapply newton_loop_stationary; eassumption.
Qed.

(** *** Bilinear algebra on arrays *)



Lemma mat_vec_length (H : matrix) (x : vec) : length (mat_vec H x) = length H.
Proof. apply length_map. Qed.

(** ** The barrier method: how the stages are chained *)

Section StagesChain.
Context {L : NumLib}.
Variable c : vec.
Variable A : matrix.
Variable b : vec.
Variables eps mu : Q.
Variable phase_one : bool.
Variables nfuel lfuel : nat.

Lemma barrier_stages_warm_started (k : nat) (x : vec) (t : Q) (xs : list vec)
    (ns : list (list vec)) (x' : vec) :
  barrier_stages c A b eps mu phase_one nfuel lfuel k x t xs ns x' ->
  warm_started x xs ns /\ last xs x = x' /\
  Forall (fun n1 => (length n1 <= nfuel)%nat) ns.
Proof.
  induction 1 as [x t Hc | k x t x1 n1 xs ns x' Hc Hn _ IH].
  - simpl. auto.
  - destruct IH as (Hw & Hlast & Hlen).
    unfold newtons_method in Hn.
    apply (@newton_loop_path L _ _ _ _ _ _ nfuel x []) in Hn.
    destruct Hn as (path & -> & Hfuel & Hend & _).
    cbn [app] in *.
    split; [| split].
    + cbn [warm_started]. split; [exists path; reflexivity |].
      split; [exact Hend | exact Hw].
    + destruct xs as [| x2 xs]; [exact Hlast |].
      change (last (x2 :: xs) x = x').
      rewrite (last_cons_indep xs x2 x x1). exact Hlast.
    + constructor; [simpl; lia | exact Hlen].
Qed.
End StagesChain.

(** X9: in the result of [barrier_method] the stages are chained: the
    inner trace of each stage begins with the point the stage before it
    returned ([x_0] for the first) and ends with the point the outer trace
    records for the stage; the returned point is the last of the outer
    trace, and no inner trace is longer than the bound on the iterations
    of one call of [newtons_method]. *)
Theorem barrier_stages_chained
    (L : NumLib) (c : vec) (A : matrix) (b : vec) (eps mu : Q)
    (phase_one : bool) (nfuel lfuel fuel : nat) (x_0 : vec) (t0 : Q)
    (x : vec) (steps : list vec) (newt_steps : list (list vec)) :
  barrier_method c A b eps mu phase_one nfuel lfuel fuel x_0 t0
  = Ok (x, steps, newt_steps) ->
  exists xs : list vec,
    steps = x_0 :: xs /\
    warm_started x_0 xs newt_steps /\
    last steps x_0 = x /\
    Forall (fun n1 => (1 <= length n1 <= nfuel)%nat) newt_steps.
Proof.
  intros Hrun. unfold barrier_method in Hrun.
  apply barrier_loop_stages in Hrun.
  destruct Hrun as (k & xs & ns & _ & Hst & -> & ->).
  apply barrier_stages_warm_started in Hst.
  destruct Hst as (Hw & Hlast & Hlen).
  exists xs. cbn [app]. split; [reflexivity |]. split; [exact Hw |].
  split.
  - destruct xs as [| x1 xs]; [exact Hlast |].
    change (last (x1 :: xs) x_0 = x). exact Hlast.
  - clear Hlast. revert x_0 xs Hw.
    induction Hlen as [| n1 ns Hn1 _ IH]; intros x0 xs Hw; constructor.
    + destruct xs as [| x1 xs]; [destruct Hw |].
      destruct Hw as ((rest & ->) & _). simpl in *. lia.
    + destruct xs as [| x1 xs]; [destruct Hw |].
      destruct Hw as (_ & _ & Hw). exact (IH x1 xs Hw).
Qed.

(** ** Newton's method over the store: the argument is overwritten *)

(** X11: [newtons_method] works in place.  Called on the array at [x],
    with closures that do not read the store, a call that returns gives
    back the location [x] itself, and the array there now holds the point
    the method returns: the caller's array is overwritten.  Every other
    array of the store is as it was, and the entries of the inner trace
    are the arrays allocated by the call, one per recorded point. *)
Theorem newtons_method_works_in_place
    (L : NumLib) (f : vec -> Q) (in_domain_of_f : vec -> bool)
    (df : vec -> vec) (ddf : vec -> matrix) (eps : Q) (lfuel fuel : nat)
    (x : loc) (h : heap) (xv' : vec) (stepsv : list vec) :
  (x < length h)%nat ->
  newtons_method f in_domain_of_f df ddf eps lfuel fuel (get1 h x)
  = Ok (xv', stepsv) ->
  exists (steps : list loc) (h' : heap),
    newtons_method_h (fun _ => f) (fun _ => in_domain_of_f) (fun _ => df)
      (fun _ => ddf) eps lfuel fuel x h
    = Ok (x, steps, h') /\
    get1 h' x = xv' /\
    map (get1 h') steps = stepsv /\
    steps = seq (length h) (length stepsv) /\
    length h' = (length h + length stepsv)%nat /\
    forall l, (l < length h)%nat -> l <> x -> nth_error h' l = nth_error h l.
Proof.
  intros Hx Hrun.
  assert (Hclos : forall h1 : heap, frame x h h1 ->
            (forall y, (fun _ : heap => f) h1 y = f y) /\
            (forall y, (fun _ : heap => in_domain_of_f) h1 y
                       = in_domain_of_f y) /\
            (forall y, (fun _ : heap => df) h1 y = df y) /\
            (forall y, (fun _ : heap => ddf) h1 y = ddf y))
    by (intros h1 _; repeat split; reflexivity).
  pose proof (@newtons_method_h_read L (fun _ => f) (fun _ => in_domain_of_f)
                (fun _ => df) (fun _ => ddf) eps lfuel f in_domain_of_f df
                ddf x h Hx Hclos fuel h (frame_refl x h)) as Hread.
  rewrite Hrun in Hread.
  destruct (newtons_method_h _ _ _ _ _ _ _ _ _) as [[[x' steps] h'] | |]
    eqn:Hh; simpl in Hread; try discriminate.
  injection Hread as Hxv Hsteps.
  destruct (@newtons_method_h_frame L (fun _ => f) (fun _ => in_domain_of_f)
              (fun _ => df) (fun _ => ddf) eps lfuel x h Hx fuel h x' steps
              h' (frame_refl x h) Hh) as (-> & [_ Hframe] & k & Esteps & Hlen).
  exists steps, h'.
  assert (Hk : length stepsv = S k).
  { rewrite <- Hsteps, length_map, Esteps, length_seq. reflexivity. }
  rewrite Hk. repeat split; auto.
Qed.

(** ** The cell that builds the polygon *)






(** The arrays the notebook prints for its five vertices. *)
Example polygon_constraints_notebook :
  exists (A : matrix) (b : vec),
    polygon_constraints notebook_vertices = Ok (A, b) /\
    meq A polygon_A /\ veq b polygon_b.
Proof.
  do 2 eexists. split; [vm_compute; reflexivity |].
  split; repeat constructor.
Qed.

(** ** The cell that draws a random instance *)

Lemma random_b_slack (v : vec) (A : matrix) :
  forall r : vec,
    Forall (fun s => 0 <= s) r ->
    Forall (fun s => 0 < s) (row_slacks A (random_b A v r) v) /\
    Forall (fun bi => 1 # 10 <= bi) (random_b A v r).
Proof.
  unfold row_slacks, random_b, vadd, mat_vec.
  induction A as [| a A IH]; intros r Hr; simpl; [split; constructor |].
  destruct Hr as [| s r Hs Hr]; simpl; [split; constructor |].
  destruct (IH r Hr) as [IH1 IH2].
  pose proof (Q.le_max_l (dot a v) (dot (vneg a) v)) as Hl.
  pose proof (Q.le_max_r (dot a v) (dot (vneg a) v)) as Hr'.
  rewrite dot_vneg_l in Hl, Hr'.
  split; constructor; try assumption.
  - rewrite dot_vneg_l. lra.
  - rewrite dot_vneg_l. lra.
Qed.

(** X13: the random instance has an interior.  Whatever arrays the calls
    of [np.random.rand] return, if the entries of the one added to [b] are
    not negative, then the point [v] drawn first is strictly feasible for
    the [A] and [b] of the cell, the domain test of the barrier objective
    passes there, and every entry of [b] is at least [0.1]. *)
Theorem random_instance_has_interior (U : vec) (R : matrix) (r : vec) :
  Forall (fun s => 0 <= s) r ->
  let v := random_v U in
  let A := random_A R in
  let b := random_b A v r in
  strictly_feasible A b v /\
  barrier_in_domain A b v = true /\
  Forall (fun bi => 1 # 10 <= bi) b.
Proof.
  intros Hr v A b.
  destruct (random_b_slack v A Hr) as [H1 H2].
  split; [exact H1 |]. split; [| exact H2].
  apply barrier_in_domain_iff. exact H1.
Qed.

(** ** plot_iterations *)

Lemma coords2_ok (x : vec) :
  (2 <= length x)%nat -> coords2 x = Ok (nth 0 x 0, nth 1 x 0).
Proof.
  destruct x as [| x0 [| x1 x]]; simpl; intros Hx; try lia. reflexivity.
Qed.

Lemma coords2_raises (x : vec) :
  (length x < 2)%nat -> coords2 x = Raise IndexError.
Proof.
  destruct x as [| x0 [| x1 x]]; simpl; intros Hx; try lia; reflexivity.
Qed.

Lemma plots_point_of_incl (steps steps' : list vec) (call : plot_call) :
  incl steps steps' -> plots_point_of steps call -> plots_point_of steps' call.
Proof.
  intros Hincl (s & m & c & Hs & E). exists s, m, c. split; auto.
Qed.

Lemma plot_each_ok (steps : list vec) (c : color) :
  Forall (fun x => (2 <= length x)%nat) steps ->
  exists calls,
    plot_each steps c = Ok calls /\ length calls = length steps /\
    Forall (plots_point_of steps) calls.
Proof.
  induction 1 as [| x steps Hx _ (calls & E & Hlen & Hcalls)]; simpl.
  - exists []. repeat split; constructor.
  - rewrite (coords2_ok x Hx), E. simpl.
    eexists. split; [reflexivity |]. split; [simpl; lia |].
    constructor.
    + exists x, false, c. split; [left; reflexivity | reflexivity].
    + eapply Forall_impl; [| exact Hcalls].
      intros call. apply plots_point_of_incl. apply incl_tl, incl_refl.
Qed.

Lemma plot_each_raises (steps : list vec) (c : color) :
  Exists (fun x => (length x < 2)%nat) steps ->
  plot_each steps c = Raise IndexError.
Proof.
  induction 1 as [x steps Hx | x steps _ IH]; simpl.
  - rewrite (coords2_raises x Hx). reflexivity.
  - destruct (coords2 x) as [xy | e |] eqn:E; simpl.
    + rewrite IH. reflexivity.
    + destruct x as [| x0 [| x1 x]]; simpl in E; congruence.
    + destruct x as [| x0 [| x1 x]]; simpl in E; congruence.
Qed.

Lemma plot_first_ok (steps : list vec) (c : color) :
  Forall (fun x => (2 <= length x)%nat) steps ->
  exists calls,
    plot_first steps c = Ok calls /\
    length calls = Nat.min 1 (length steps) /\
    Forall (plots_point_of steps) calls.
Proof.
  intros H. destruct H as [| x steps Hx _]; simpl.
  - exists []. repeat split; constructor.
  - rewrite (coords2_ok x Hx). simpl.
    eexists. split; [reflexivity |]. split; [reflexivity |].
    constructor; [| constructor].
    exists x, true, (c). split; [left; reflexivity | reflexivity].
Qed.

Lemma plot_first_result (steps : list vec) (c : color) :
  (exists calls, plot_first steps c = Ok calls) \/
  plot_first steps c = Raise IndexError.
Proof.
  destruct steps as [| [| x0 [| x1 x]] steps]; simpl; eauto.
Qed.

Lemma combine_fst_snd {X Y : Type} (l : list (X * Y)) :
  combine (map fst l) (map snd l) = l.
Proof.
  induction l as [| [a b] l IH]; simpl; [reflexivity |]. rewrite IH.
  reflexivity.
Qed.

(** What a call of [plot_iterations] on well-shaped arguments does. *)
Lemma plot_iterations_ok (vertices : list point2) (steps1 steps2 : list vec) :
  vertices <> [] ->
  Forall (fun x => (2 <= length x)%nat) steps1 ->
  Forall (fun x => (2 <= length x)%nat) steps2 ->
  exists (xs ys : list Q) (calls : list plot_call),
    plot_iterations vertices steps1 steps2 = Ok (Fill xs ys :: calls) /\
    combine xs ys = vertices ++ [hd (0, 0) vertices] /\
    length xs = length ys /\
    length calls
    = (Nat.min 1 (length steps1) + length steps1
       + (Nat.min 1 (length steps2) + length steps2))%nat /\
    Forall (plots_point_of (steps1 ++ steps2)) calls.
Proof.
  intros Hv H1 H2. destruct vertices as [| v0 vertices]; [congruence |].
  unfold plot_iterations.
  destruct (plot_first_ok (1, 2 # 10, 2 # 10) H1) as (f1 & -> & Lf1 & Pf1).
  destruct (plot_each_ok (8 # 10, 2 # 10, 2 # 10) H1) as (e1 & -> & Le1 & Pe1).
  destruct (plot_first_ok (2 # 10, 1, 2 # 10) H2) as (f2 & -> & Lf2 & Pf2).
  destruct (plot_each_ok (2 # 10, 5 # 10, 2 # 10) H2) as (e2 & -> & Le2 & Pe2).
  cbn [bind]. do 3 eexists. split; [reflexivity |].
  split; [apply combine_fst_snd |].
  split; [rewrite !length_map; reflexivity |].
  split; [rewrite !length_app; lia |].
  assert (I1 : incl steps1 (steps1 ++ steps2)) by apply incl_appl, incl_refl.
  assert (I2 : incl steps2 (steps1 ++ steps2)) by apply incl_appr, incl_refl.
  assert (W1 : forall calls, Forall (plots_point_of steps1) calls ->
                             Forall (plots_point_of (steps1 ++ steps2)) calls).
  { intros calls Hcalls. eapply Forall_impl; [| exact Hcalls].
    intros call. apply plots_point_of_incl. exact I1. }
  assert (W2 : forall calls, Forall (plots_point_of steps2) calls ->
                             Forall (plots_point_of (steps1 ++ steps2)) calls).
  { intros calls Hcalls. eapply Forall_impl; [| exact Hcalls].
    intros call. apply plots_point_of_incl. exact I2. }
  apply Forall_app. split; [apply W1; exact Pf1 |].
  apply Forall_app. split; [apply W1; exact Pe1 |].
  apply Forall_app. split; [apply W2; exact Pf2 | apply W2; exact Pe2].
Qed.

(** X14: [plot_iterations] raises [IndexError] when the list of vertices
    is empty or a point of a trace has fewer than two coordinates.
    Otherwise it returns after one call of [plt.fill] on the outline
    closed with its first vertex, followed by calls of [plt.plot] only:
    one for every point of the two traces and one more for the first
    point of each trace that is not empty, each at the first two
    coordinates of a point of the traces. *)
Theorem plot_iterations_calls
    (vertices : list point2) (steps1 steps2 : list vec) :
  (vertices = [] \/ Exists (fun x => (length x < 2)%nat) (steps1 ++ steps2) ->
   plot_iterations vertices steps1 steps2 = Raise IndexError) /\
  (vertices <> [] ->
   Forall (fun x => (2 <= length x)%nat) (steps1 ++ steps2) ->
   exists (xs ys : list Q) (calls : list plot_call),
     plot_iterations vertices steps1 steps2 = Ok (Fill xs ys :: calls) /\
     combine xs ys = vertices ++ [hd (0, 0) vertices] /\
     length xs = length ys /\
     length calls
     = (Nat.min 1 (length steps1) + length steps1
        + (Nat.min 1 (length steps2) + length steps2))%nat /\
     Forall (plots_point_of (steps1 ++ steps2)) calls).
Proof.
  split.
  - intros [-> | Hbad]; [reflexivity |].
    destruct vertices as [| v0 vertices]; [reflexivity |].
    unfold plot_iterations.
    destruct (plot_first_result steps1 (1, 2 # 10, 2 # 10))
      as [[f1 ->] | ->]; [| reflexivity].
    cbn [bind]. apply Exists_app in Hbad. destruct Hbad as [Hbad | Hbad].
    + rewrite (plot_each_raises _ Hbad). reflexivity.
    + destruct (plot_each steps1 (8 # 10, 2 # 10, 2 # 10)) as [e1 | e |] eqn:E1.
      * cbn [bind].
        destruct (plot_first_result steps2 (2 # 10, 1, 2 # 10))
          as [[f2 ->] | ->]; [| reflexivity].
        cbn [bind]. rewrite (plot_each_raises _ Hbad). reflexivity.
      * cbn [bind]. f_equal.
        clear - E1. revert e E1.
        induction steps1 as [| x steps1 IH]; intros e; simpl; [discriminate |].
        destruct x as [| x0 [| x1 x]]; simpl; try congruence.
        destruct (plot_each steps1 _) as [r | e' |]; simpl; try discriminate.
        intros [= <-]. apply (IH e'). reflexivity.
      * exfalso. clear - E1. revert E1.
        induction steps1 as [| x steps1 IH]; simpl; [discriminate |].
        destruct x as [| x0 [| x1 x]]; simpl; try discriminate.
        destruct (plot_each steps1 _) as [r | e' |]; simpl; try discriminate.
        intros _. apply IH. reflexivity.
  - intros Hv Hall. apply Forall_app in Hall. destruct Hall as [H1 H2].
    apply plot_iterations_ok; assumption.
Qed.

(** ** The cell that solves and draws *)

(** X15: the cell [barrier_method(...); plot_iterations(vertices,
    newt_steps[0], steps)] on a problem with two unknowns, a list of
    vertices that is not empty and [t0 <> 0].  If the first test of the
    loop fails ([m / t0 < eps]) no stage is run and [newt_steps[0]] raises
    [IndexError].  If it passes and [barrier_method] returns, the drawing
    raises nothing: there is a first stage, and every point of the traces
    has two coordinates. *)
Theorem solve_and_plot_result
    (L : NumLib) (HL : NumLibSpec L) (vertices : list point2)
    (c : vec) (A : matrix) (b x_0 : vec) (eps mu t0 : Q)
    (nfuel lfuel fuel : nat) :
  vertices <> [] -> ncols A = 2%nat -> length c = 2%nat ->
  length x_0 = 2%nat -> ~ t0 == 0 ->
  (inject_Z (Z.of_nat (nrows A)) / t0 < eps ->
   solve_and_plot vertices c A b x_0 eps mu t0 nfuel lfuel (S fuel)
   = Raise IndexError) /\
  (eps <= inject_Z (Z.of_nat (nrows A)) / t0 ->
   forall (x : vec) (steps : list vec) (newt_steps : list (list vec)),
     barrier_method c A b eps mu false nfuel lfuel fuel x_0 t0
     = Ok (x, steps, newt_steps) ->
     exists (first_stage : list vec) (rest : list (list vec))
            (xs ys : list Q) (calls : list plot_call),
       newt_steps = first_stage :: rest /\
       solve_and_plot vertices c A b x_0 eps mu t0 nfuel lfuel fuel
       = Ok (Fill xs ys :: calls) /\
       length calls
       = (1 + length first_stage + (1 + length steps))%nat).
Proof.
  intros Hv HA Hc Hx Ht. split.
  - intros Hstop. unfold solve_and_plot, barrier_method.
    cbn [barrier_loop]. rewrite loop_condition_gap by exact Ht.
    apply Qle_bool_false_iff in Hstop. rewrite Hstop. reflexivity.
  - intros Hgo x steps newt_steps Hrun.
    unfold solve_and_plot. rewrite Hrun. cbn [bind].
    unfold barrier_method in Hrun. apply barrier_loop_stages in Hrun.
    destruct Hrun as (k & xs & ns & _ & Hst & -> & ->). cbn [app].
    assert (Hlen : Forall (fun p => length p = ncols A) xs /\
                   Forall (Forall (fun p => length p = ncols A)) ns).
    { eapply barrier_stages_invariant
        with (P := fun p => length p = ncols A) in Hst.
      - tauto.
      - intros t p p1 n1 Hp Hn.
        eapply centering_length with (c := c); try eassumption. congruence.
      - congruence. }
    destruct Hlen as [Hxs Hns].
    pose proof (barrier_stages_warm_started Hst) as (Hw & _ & _).
    inversion Hst as [x1 t1 Hcond | k' x1 t1 x2 n1 xs' ns' x3 Hcond Hn Hrest];
      subst.
    + rewrite loop_condition_gap in Hcond by exact Ht.
      apply Qle_bool_iff in Hgo. congruence.
    + destruct Hw as ((path & ->) & _).
      inversion Hns as [| ? ? Hn1 _]; subst.
      destruct (@plot_iterations_ok vertices (x_0 :: path)
                  (x_0 :: x2 :: xs') Hv)
        as (pxs & pys & calls & E & _ & _ & Hcount & _).
      * eapply Forall_impl; [| exact Hn1]. intros p Hp. simpl in Hp. lia.
      * constructor; [lia |].
        eapply Forall_impl; [| exact Hxs]. intros p Hp. simpl in Hp. lia.
      * exists (x_0 :: path), ns', pxs, pys, calls.
        split; [reflexivity |]. split; [exact E |].
        rewrite Hcount. reflexivity.
Qed.

(** ** The Hessian of the barrier objective as a quadratic form *)









Section HessianForm.
Variable v : vec.









End HessianForm.










(** * The binary64 embedding: iterations, stages and failures *)

Section LineSearch64Facts.
Variable f : fvec -> float.
Variable in_domain_of_f : fvec -> bool.
Variable df : fvec -> fvec.
Variables x dx : fvec.
Variables alpha beta : float.

Lemma domain_loop_b64_no_raise (fuel : nat) :
  forall (t : float) (e : exn),
    domain_loop_b64 in_domain_of_f x dx beta fuel t <> Raise e.
Proof.
  induction fuel as [| fuel IH]; intros t e; simpl; [discriminate |].
  destruct (in_domain_of_f _); [discriminate | apply IH].
Qed.

Lemma armijo_loop_b64_no_raise (fuel : nat) :
  forall (t : float) (e : exn),
    armijo_loop_b64 f df x dx alpha beta fuel t <> Raise e.
Proof.
  induction fuel as [| fuel IH]; intros t e; simpl; [discriminate |].
  destruct (PrimFloat.ltb _ _); [apply IH | discriminate].
Qed.

Lemma backtracking_line_search_b64_no_raise (fuel : nat) (e : exn) :
  backtracking_line_search_b64 f in_domain_of_f df x dx alpha beta fuel
  <> Raise e.
Proof.
  unfold backtracking_line_search_b64.
  destruct (domain_loop_b64 in_domain_of_f x dx beta fuel 1) as [t | e' |]
    eqn:E; simpl.
  - apply armijo_loop_b64_no_raise.
  - exfalso. eapply domain_loop_b64_no_raise. exact E.
  - discriminate.
Qed.
End LineSearch64Facts.

Section Newton64Facts.
Context {L : NumLib64}.
Variable f : fvec -> float.
Variable in_domain_of_f : fvec -> bool.
Variable df : fvec -> fvec.
Variable ddf : fvec -> fmatrix.
Variable eps : float.
Variable lfuel : nat.

Let step := newton_step_b64 f in_domain_of_f df ddf eps lfuel.
Let stops := newton_stops_b64 df ddf eps.
Let loop := newton_loop_b64 f in_domain_of_f df ddf eps lfuel.

(** A run of the loop that returns has followed a path of steps. *)
Lemma newton_loop_b64_path (fuel : nat) :
  forall (x : fvec) (pre : list fvec) (x' : fvec) (steps' : list fvec),
    loop fuel x (pre ++ [x]) = Ok (x', steps') ->
    exists path,
      steps' = pre ++ x :: path /\
      (length path < fuel)%nat /\
      last (x :: path) x = x' /\
      consecutive step (x :: path) /\
      stops x'.
Proof.
  subst step stops loop.
  induction fuel as [| fuel IH]; intros x pre x' steps'; simpl;
    [discriminate |].
  destruct (linalg_solve_b64 (ddf x) (df x)) as [y |] eqn:Hsolve;
    [| discriminate].
  destruct (PrimFloat.leb _ eps) eqn:Htest.
  - intros [= <- <-]. exists []. simpl.
    repeat split; [lia |]. exists y. split; assumption.
  - destruct (backtracking_line_search_b64 _ _ _ _ _ _ _ _) as [t | e |]
      eqn:Hls; simpl; try discriminate.
    set (q := vadd_b64 x (vscale_b64 t (vneg_b64 y))).
    intros H. apply (IH q (pre ++ [x])) in H.
    destruct H as (path & -> & Hlen & Hlast & Hpath & Hstop).
    exists (q :: path). rewrite <- app_assoc.
    split; [reflexivity |]. split; [simpl; lia |].
    split; [| split; [| exact Hstop]].
    + rewrite <- Hlast. apply last_cons_indep.
    + split; [| exact Hpath].
      exists y, t. repeat split; assumption.
Qed.

(** A path of steps that ends where the test passes is a run that
    returns, given fuel for it. *)
Lemma newton_loop_b64_run (path : list fvec) :
  forall (x : fvec) (pre : list fvec) (fuel : nat),
    (length path < fuel)%nat ->
    consecutive step (x :: path) ->
    stops (last (x :: path) x) ->
    loop fuel x (pre ++ [x])
    = Ok (last (x :: path) x, pre ++ x :: path).
Proof.
  subst step stops loop.
  induction path as [| q path IH]; intros x pre [| fuel] Hfuel Hpath Hstop;
    simpl in Hfuel; try lia.
  - cbn [last] in Hstop. destruct Hstop as (y & Hsolve & Htest).
    cbn [newton_loop_b64 last]. rewrite Hsolve. cbv zeta. rewrite Htest.
    reflexivity.
  - destruct Hpath as [(y & t & Hsolve & Htest & Hls & ->) Hpath].
    cbn [newton_loop_b64]. rewrite Hsolve. cbv zeta. rewrite Htest, Hls.
    cbn [bind].
    set (q := vadd_b64 x (vscale_b64 t (vneg_b64 y))) in *.
    change (last (x :: q :: path) x) with (last (q :: path) x) in *.
    rewrite (last_cons_indep path q x q) in *.
    rewrite (IH q (pre ++ [x]) fuel ltac:(lia) Hpath Hstop).
    rewrite <- app_assoc. reflexivity.
Qed.

(** A run of the loop that raises [LinAlgError] has followed a path of
    steps to a point where the solver failed. *)
Lemma newton_loop_b64_raises (fuel : nat) :
  forall (x : fvec) (steps : list fvec),
    loop fuel x steps = Raise LinAlgError ->
    exists path,
      (length path < fuel)%nat /\
      consecutive step (x :: path) /\
      linalg_solve_b64 (ddf (last (x :: path) x)) (df (last (x :: path) x))
      = None.
Proof.
  subst step stops loop.
  induction fuel as [| fuel IH]; intros x steps; simpl; [discriminate |].
  destruct (linalg_solve_b64 (ddf x) (df x)) as [y |] eqn:Hsolve.
  - destruct (PrimFloat.leb _ eps) eqn:Htest; [discriminate |].
    destruct (backtracking_line_search_b64 _ _ _ _ _ _ _ _) as [t | e |]
      eqn:Hls; simpl; try discriminate.
    + set (q := vadd_b64 x (vscale_b64 t (vneg_b64 y))).
      intros H. apply IH in H. destruct H as (path & Hlen & Hpath & Hnone).
      exists (q :: path). split; [simpl; lia |]. split.
      * split; [| exact Hpath]. exists y, t. repeat split; assumption.
      * change (last (x :: q :: path) x) with (last (q :: path) x).
        rewrite (last_cons_indep path q x q). exact Hnone.
    + intros _. exfalso.
      eapply backtracking_line_search_b64_no_raise. exact Hls.
  - intros _. exists []. simpl. split; [lia |]. split; [exact I | exact Hsolve].
Qed.

Lemma newton_loop_b64_fails (path : list fvec) :
  forall (x : fvec) (steps : list fvec) (fuel : nat),
    (length path < fuel)%nat ->
    consecutive step (x :: path) ->
    linalg_solve_b64 (ddf (last (x :: path) x)) (df (last (x :: path) x))
    = None ->
    loop fuel x steps = Raise LinAlgError.
Proof.
  subst step stops loop.
  induction path as [| q path IH]; intros x steps [| fuel] Hfuel Hpath Hnone;
    simpl in Hfuel; try lia.
  - cbn [newton_loop_b64 last] in *. rewrite Hnone. reflexivity.
  - destruct Hpath as [(y & t & Hsolve & Htest & Hls & ->) Hpath].
    cbn [newton_loop_b64]. rewrite Hsolve. cbv zeta. rewrite Htest, Hls.
    cbn [bind].
    set (q := vadd_b64 x (vscale_b64 t (vneg_b64 y))) in *.
    change (last (x :: q :: path) x) with (last (q :: path) x) in Hnone.
    rewrite (last_cons_indep path q x q) in Hnone.
    apply IH; [lia | exact Hpath | exact Hnone].
Qed.
End Newton64Facts.

(** C2 (amended): [newtons_method] returns [(x', steps)] exactly when
    [steps] is a path of its iterations from the point it was called on
    to [x']: it starts with [x], each entry leads to the next by one
    pass of the loop (the solver returned [y] on [ddf(p)], [df(p)]; with
    [dx = -y] and [lambda_sq = -df(p)·dx] the test [lambda_sq/2 <= eps]
    failed; the line search returned [t]; the next entry is [p + t*dx]),
    the test passes at [x'], the last entry, and the path has at most
    [fuel] entries.  All operations are those of binary64. *)
Theorem newton_iterations_b64
    (L : NumLib64) (f : fvec -> float) (in_domain_of_f : fvec -> bool)
    (df : fvec -> fvec) (ddf : fvec -> fmatrix) (eps : float)
    (lfuel fuel : nat) (x x' : fvec) (steps : list fvec) :
  newtons_method_b64 f in_domain_of_f df ddf eps lfuel fuel x
  = Ok (x', steps) <->
  exists path : list fvec,
    steps = x :: path /\
    (length steps <= fuel)%nat /\
    last steps x = x' /\
    consecutive (newton_step_b64 f in_domain_of_f df ddf eps lfuel) steps /\
    newton_stops_b64 df ddf eps x'.
Proof.
  unfold newtons_method_b64. split.
  - intros Hrun.
    apply (@newton_loop_b64_path L f in_domain_of_f df ddf eps lfuel fuel x [])
      in Hrun.
    destruct Hrun as (path & -> & Hlen & Hlast & Hpath & Hstop).
    exists path. cbn [app length] in *.
    split; [reflexivity |]. split; [lia |].
    split; [exact Hlast |]. split; [exact Hpath | exact Hstop].
  - intros (path & -> & Hlen & Hlast & Hpath & Hstop). subst x'.
    cbn [length] in Hlen.
    exact (@newton_loop_b64_run L f in_domain_of_f df ddf eps lfuel path x []
             fuel ltac:(lia) Hpath Hstop).
Qed.

(** C6 (amended): [newtons_method] makes no test of the Hessian.  It
    raises [LinAlgError] exactly when its iterations lead from the point
    it was called on to a point where the solver itself fails, and the
    loop of [barrier_method] hands that error on to its caller. *)
Theorem solver_failure_surfaces_b64
    (L : NumLib64) (f : fvec -> float) (in_domain_of_f : fvec -> bool)
    (df : fvec -> fvec) (ddf : fvec -> fmatrix) (eps : float)
    (lfuel fuel : nat) (x : fvec) :
  (newtons_method_b64 f in_domain_of_f df ddf eps lfuel fuel x
   = Raise LinAlgError <->
   exists path : list fvec,
     (length path < fuel)%nat /\
     consecutive (newton_step_b64 f in_domain_of_f df ddf eps lfuel)
       (x :: path) /\
     linalg_solve_b64 (ddf (last (x :: path) x)) (df (last (x :: path) x))
     = None) /\
  forall (c : fvec) (A : fmatrix) (b : fvec) (eps' mu : float)
         (phase_one : bool) (nfuel lfuel' bfuel : nat) (steps : list fvec)
         (newt_steps : list (list fvec)) (t : float),
    loop_condition_b64 A eps' phase_one x t = Ok true ->
    newtons_method_b64 (barrier_f_b64 c A b t) (barrier_in_domain_b64 A b)
      (barrier_df_b64 c A b t) (barrier_ddf_b64 A b) eps_default_b64 lfuel'
      nfuel x
    = Raise LinAlgError ->
    barrier_loop_b64 c A b eps' mu phase_one nfuel lfuel' (S bfuel) x steps
      newt_steps t
    = Raise LinAlgError.
Proof.
  split.
  - unfold newtons_method_b64. split.
    + apply newton_loop_b64_raises.
    + intros (path & Hlen & Hpath & Hnone).
      exact (@newton_loop_b64_fails L f in_domain_of_f df ddf eps lfuel path
               x [x] fuel Hlen Hpath Hnone).
  - intros c A b eps' mu phase_one nfuel lfuel' bfuel steps newt_steps t
      Hgo Hraise.
    cbn [barrier_loop_b64]. rewrite Hgo. cbn [bind]. rewrite Hraise.
    reflexivity.
Qed.

(** ** The stages of a run in binary64 *)

Section Stages64.
Context {L : NumLib64}.
Variable c : fvec.
Variable A : fmatrix.
Variable b : fvec.
Variables eps mu : float.
Variables nfuel lfuel : nat.

Let cond := loop_condition_b64 A eps false.
Let loop := barrier_loop_b64 c A b eps mu false nfuel lfuel.
Let returns := centering_returns_b64 c A b mu nfuel lfuel.

Lemma stage_t_b64_shift (t : float) (j : nat) :
  stage_t_b64 mu (t * mu)%float j = stage_t_b64 mu t (S j).
Proof. unfold stage_t_b64. rewrite Nat.iter_succ_r. reflexivity. Qed.

Lemma barrier_loop_b64_run (k : nat) :
  forall (x : fvec) (t : float) (steps : list fvec)
         (newt_steps : list (list fvec)) (fuel : nat),
    (k < fuel)%nat ->
    (forall j, (j < k)%nat -> cond x (stage_t_b64 mu t j) = Ok true) ->
    cond x (stage_t_b64 mu t k) = Ok false ->
    returns k x t ->
    exists x' xs ns,
      loop fuel x steps newt_steps t
      = Ok (x', steps ++ xs, newt_steps ++ ns) /\
      length xs = k /\ length ns = k.
Proof.
  subst cond loop returns.
  induction k as [| k IH]; intros x t steps newt_steps [| fuel] Hfuel Hgo
    Hstop Hret; try lia.
  - exists x, [], []. cbn [barrier_loop_b64].
    change (stage_t_b64 mu t 0) with t in Hstop. rewrite Hstop.
    cbn [bind]. rewrite !app_nil_r. auto.
  - cbn [barrier_loop_b64].
    pose proof (Hgo O ltac:(lia)) as H0.
    change (stage_t_b64 mu t 0) with t in H0. rewrite H0. cbn [bind].
    cbn [centering_returns_b64] in Hret.
    destruct (newtons_method_b64 _ _ _ _ _ _ _ _) as [r | |]; try contradiction.
    cbn [bind].
    destruct (IH (fst r) (t * mu)%float (steps ++ [fst r])
                (newt_steps ++ [snd r]) fuel ltac:(lia))
      as (x' & xs & ns & Hrun & Hxs & Hns).
    + intros j Hj. rewrite stage_t_b64_shift. apply (Hgo (S j)). lia.
    + rewrite stage_t_b64_shift. exact Hstop.
    + exact Hret.
    + exists x', (fst r :: xs), (snd r :: ns). rewrite Hrun.
      rewrite <- !app_assoc. simpl. auto.
Qed.

Lemma barrier_loop_b64_stages (fuel : nat) :
  forall (x : fvec) (t : float) (steps : list fvec)
         (newt_steps : list (list fvec)) (x' : fvec) (steps' : list fvec)
         (newt_steps' : list (list fvec)),
    loop fuel x steps newt_steps t = Ok (x', steps', newt_steps') ->
    exists xs ns,
      steps' = steps ++ xs /\ newt_steps' = newt_steps ++ ns /\
      length xs = length ns /\ (length ns < fuel)%nat /\
      (forall j, (j < length ns)%nat ->
                 cond x (stage_t_b64 mu t j) = Ok true) /\
      cond x (stage_t_b64 mu t (length ns)) = Ok false /\
      returns (length ns) x t.
Proof.
  subst cond loop returns.
  induction fuel as [| fuel IH]; intros x t steps newt_steps x' steps'
    newt_steps'; cbn [barrier_loop_b64]; [discriminate |].
  destruct (loop_condition_b64 A eps false x t) as [[|] | |] eqn:Hc;
    cbn [bind]; try discriminate.
  - destruct (newtons_method_b64 _ _ _ _ _ _ _ _) as [r | |] eqn:Hn;
      cbn [bind]; try discriminate.
    intros H. apply IH in H.
    destruct H as (xs & ns & -> & -> & Hlen & Hfuel & Hgo & Hstop & Hret).
    exists (fst r :: xs), (snd r :: ns). rewrite <- !app_assoc.
    split; [reflexivity |]. split; [reflexivity |].
    split; [simpl; lia |]. split; [simpl; lia |].
    split; [| split].
    + intros [| j] Hj; [exact Hc |].
      rewrite <- stage_t_b64_shift. apply Hgo. simpl in Hj. lia.
    + cbn [length]. rewrite <- stage_t_b64_shift. exact Hstop.
    + cbn [length centering_returns_b64]. rewrite Hn. exact Hret.
  - intros [= <- <- <-]. exists [], []. rewrite !app_nil_r.
    repeat split; auto. simpl. lia. intros j Hj. simpl in Hj. lia.
Qed.
End Stages64.

(** C1 (amended): with [phase_one] false, a run of [barrier_method]
    returns after exactly [k] stages if and only if the test
    [m / t >= eps], as binary64 computes it, passes at the first [k]
    values of [t] and fails at the next, and the [k] centering calls
    return; the values of [t] are [t0] and the rounded products
    [t *= mu] made from it.  So [k] is the least number of stages after
    which the computed test fails. *)
Theorem barrier_stage_count_b64
    (L : NumLib64) (c : fvec) (A : fmatrix) (b : fvec) (eps mu : float)
    (nfuel lfuel fuel : nat) (x_0 : fvec) (t0 : float) (k : nat) :
  (exists (x : fvec) (xs : list fvec) (ns : list (list fvec)),
      barrier_method_b64 c A b eps mu false nfuel lfuel fuel x_0 t0
      = Ok (x, x_0 :: xs, ns) /\
      length xs = k /\ length ns = k)
  <->
  ((k < fuel)%nat /\
   (forall j, (j < k)%nat ->
      loop_condition_b64 A eps false x_0 (stage_t_b64 mu t0 j) = Ok true) /\
   loop_condition_b64 A eps false x_0 (stage_t_b64 mu t0 k) = Ok false /\
   centering_returns_b64 c A b mu nfuel lfuel k x_0 t0).
Proof.
  unfold barrier_method_b64. split.
  - intros (x & xs & ns & Hrun & Hxs & Hns).
    apply barrier_loop_b64_stages in Hrun.
    destruct Hrun as (xs' & ns' & E & -> & Hlen & Hfuel & Hgo & Hstop & Hret).
    cbn [app] in Hns. rewrite <- Hns.
    split; [exact Hfuel |]. split; [exact Hgo |].
    split; [exact Hstop | exact Hret].
  - intros (Hfuel & Hgo & Hstop & Hret).
    destruct (@barrier_loop_b64_run L c A b eps mu nfuel lfuel k x_0 t0
                [x_0] [] fuel Hfuel Hgo Hstop Hret)
      as (x & xs & ns & Hrun & Hxs & Hns).
    exists x, xs, ns. auto.
Qed.

(** C1, as the specification states it, fails: the number of stages is
    not the least [k] with [m / (t0 * mu^k) < eps].  On the interval with
    [eps = 5], [mu = 2] and [t0 = 0.1] the call runs three stages, while
    for the number the float [0.1] stands for [k = 2] already satisfies
    the inequality: the quotient [2 / 0.4] is rounded to [5.0], and the
    test [5.0 >= 5] passes.  With three constraints, [eps = 10], [mu = 3]
    and [t0 = 0.1] the call runs one stage, while for [t0 = 1/10] the
    inequality fails at [k = 1]: the product [0.1 * 3] is rounded above
    [3/10]. *)
Theorem stage_count_depends_on_rounding :
  (exists (x : fvec) (steps : list fvec) (ns : list (list fvec)),
      barrier_method_b64 (L := small_lib_b64) interval_c_b64 interval_A_b64
        interval_b_b64 5 2 false 10 30 10 [0%float] 0.1
      = Ok (x, steps, ns) /\
      length ns = 3%nat /\
      float_value 2 / (float_value 0.1 * float_value 2 ^ 2) < float_value 5) /\
  (exists (x : fvec) (steps : list fvec) (ns : list (list fvec)),
      barrier_method_b64 (L := small_lib_b64) interval_c_b64 wedge_A_b64
        wedge_b_b64 10 3 false 10 30 10 [0%float] 0.1
      = Ok (x, steps, ns) /\
      length ns = 1%nat /\
      ~ 3 / ((1 # 10) * 3 ^ 1) < 10).
Proof.
  split.
  - do 3 eexists. split; [vm_compute; reflexivity |].
    split; [reflexivity |]. vm_compute. reflexivity.
  - do 3 eexists. split; [vm_compute; reflexivity |].
    split; [reflexivity |]. vm_compute. discriminate.
Qed.

(** C2, as the specification states it, fails: the direction is not the
    exact solution of [ddf(x) · dx = -df(x)].  For [49 x²/2 - x] at
    [x = 0] the system is [49 dx = 1]; the solver returns the float
    nearest to [1/49], and [49] times the number it stands for is not
    [1].  So the point reached by the full step is not the minimiser, and
    with [eps = 0] the call takes a second step. *)
Theorem newton_direction_is_rounded :
  exists (y x1 x2 : float),
    solve_small_b64 (quad49_ddf [0%float]) (quad49_df [0%float])
    = Some [y] /\
    ~ float_value 49 * float_value (- y) == 1 /\
    newtons_method_b64 (L := small_lib_b64) quad49_f (fun _ => true)
      quad49_df quad49_ddf 0 30 10 [0%float]
    = Ok ([x2], [[0%float]; [x1]; [x2]]) /\
    x1 = (- y)%float /\ PrimFloat.eqb x1 x2 = false.
Proof.
  do 3 eexists. split; [vm_compute; reflexivity |].
  split; [vm_compute; discriminate |].
  split; [vm_compute; reflexivity |].
  split; vm_compute; reflexivity.
Qed.

(** * The further properties at concrete inputs *)

(** Newton's method on [(x - 1)²] from [0]. *)
Lemma newton_trace_witness :
  exists (x' : vec) (steps : list vec),
    newtons_method (L := small_lib)
      (fun y => (nth 0 y 0 - 1) * (nth 0 y 0 - 1)) (fun _ => true)
      (fun y => [2 * (nth 0 y 0 - 1)]) (fun _ => [[2]])
      eps_default 5 5 [0]
    = Ok (x', steps) /\
    length steps = 2%nat /\
    last steps [0] = x' /\
    newton_stops (L := small_lib) (fun y => [2 * (nth 0 y 0 - 1)])
      (fun _ => [[2]]) eps_default x'.
Proof.
  do 2 eexists. split; [vm_compute; reflexivity |].
  split; [reflexivity |].
  destruct (@newton_trace small_lib
              (fun y => (nth 0 y 0 - 1) * (nth 0 y 0 - 1)) (fun _ => true)
              (fun y => [2 * (nth 0 y 0 - 1)]) (fun _ => [[2]])
              eps_default 5 5 [0] _ _ ltac:(vm_compute; reflexivity))
    as (_ & _ & Hlast & _ & Hstops).
  split; assumption.
Defined.

(** Newton's method on [(x - 1)²] from its minimiser. *)
Lemma newtons_method_at_stationary_point_witness :
  newtons_method (L := small_lib)
    (fun y => (nth 0 y 0 - 1) * (nth 0 y 0 - 1)) (fun _ => true)
    (fun y => [2 * (nth 0 y 0 - 1)]) (fun _ => [[2]])
    eps_default 5 1 [1]
  = Ok ([1], [[1]]).
Proof.
  apply (@newtons_method_at_stationary_point small_lib
           (fun y => (nth 0 y 0 - 1) * (nth 0 y 0 - 1)) (fun _ => true)
           (fun y => [2 * (nth 0 y 0 - 1)]) (fun _ => [[2]])
           eps_default 5 O [1] [(2 * (1 - 1)) / 2]).
  - discriminate.
  - constructor; [reflexivity | constructor].
  - reflexivity.
Defined.

(** The run on the interval: how its stages are chained. *)
Lemma barrier_stages_chained_witness :
  exists (x : vec) (steps : list vec) (newt_steps : list (list vec)),
    barrier_method (L := small_lib) interval_c interval_A interval_b
      5 2 false 5 5 5 [0] (1 # 10)
    = Ok (x, steps, newt_steps) /\
    exists xs : list vec,
      steps = [0] :: xs /\
      warm_started [0] xs newt_steps /\
      last steps [0] = x /\
      Forall (fun n1 => (1 <= length n1 <= 5)%nat) newt_steps.
Proof.
  do 3 eexists. split; [vm_compute; reflexivity |].
  apply (@barrier_stages_chained small_lib interval_c interval_A interval_b
           5 2 false 5 5 5 [0] (1 # 10)).
  vm_compute. reflexivity.
Defined.

(** Newton's method on [(x - 1)²], called on the array at location 3 of
    the store of the interval example. *)
Lemma newtons_method_works_in_place_witness :
  exists (xv' : vec) (steps : list loc) (h' : heap),
    newtons_method_h (L := small_lib)
      (fun _ y => (nth 0 y 0 - 1) * (nth 0 y 0 - 1)) (fun _ _ => true)
      (fun _ y => [2 * (nth 0 y 0 - 1)]) (fun _ _ => [[2]])
      eps_default 5 5 3%nat interval_store
    = Ok (3%nat, steps, h') /\
    get1 h' 3%nat = xv' /\ veq xv' [1] /\
    steps = [4%nat; 5%nat] /\
    forall l, (l < 3)%nat -> nth_error h' l = nth_error interval_store l.
Proof.
  destruct (@newtons_method_works_in_place small_lib
              (fun y => (nth 0 y 0 - 1) * (nth 0 y 0 - 1)) (fun _ => true)
              (fun y => [2 * (nth 0 y 0 - 1)]) (fun _ => [[2]])
              eps_default 5 5 3%nat interval_store _ _
              ltac:(simpl; lia) ltac:(vm_compute; reflexivity))
    as (steps & h' & Hrun & Hx & _ & Hsteps & _ & Hframe).
  do 3 eexists. split; [exact Hrun |].
  split; [exact Hx |]. split; [repeat constructor |].
  split; [exact Hsteps |].
  intros l Hl. apply Hframe; simpl; lia.
Defined.


(** A draw with [m = 2] and [n = 1]. *)
Lemma random_instance_has_interior_witness :
  strictly_feasible (random_A [[1 # 4]])
    (random_b (random_A [[1 # 4]]) (random_v [1 # 2]) [1 # 3; 2 # 3])
    (random_v [1 # 2]) /\
  barrier_in_domain (random_A [[1 # 4]])
    (random_b (random_A [[1 # 4]]) (random_v [1 # 2]) [1 # 3; 2 # 3])
    (random_v [1 # 2]) = true /\
  Forall (fun bi => 1 # 10 <= bi)
    (random_b (random_A [[1 # 4]]) (random_v [1 # 2]) [1 # 3; 2 # 3]).
Proof.
  apply (@random_instance_has_interior [1 # 2] [[1 # 4]] [1 # 3; 2 # 3]).
  constructor; [discriminate |]. constructor; [discriminate | constructor].
Defined.

(** The square with a trace of one point and an empty trace. *)
Lemma plot_iterations_calls_witness :
  exists (xs ys : list Q) (calls : list plot_call),
    plot_iterations box_vertices [[0; 0]] [] = Ok (Fill xs ys :: calls) /\
    combine xs ys = box_vertices ++ [(1, 1)] /\
    length calls = 2%nat.
Proof.
  destruct (proj2 (plot_iterations_calls box_vertices [[0; 0]] [])
              ltac:(discriminate)
              ltac:(constructor; [simpl; lia | constructor]))
    as (xs & ys & calls & E & Hxy & _ & Hcount & _).
  exists xs, ys, calls. split; [exact E |]. split; [exact Hxy |].
  exact Hcount.
Defined.

(** The square with the objective zero, from its centre: one stage, and
    five calls of [plt.plot]. *)
Lemma solve_and_plot_result_witness :
  exists (xs ys : list Q) (calls : list plot_call),
    solve_and_plot (L := small_lib) box_vertices [0; 0] box_A box_b [0; 0]
      1 10 1 3 5 5
    = Ok (Fill xs ys :: calls) /\
    length calls = 5%nat.
Proof.
  destruct (proj2 (@solve_and_plot_result small_lib small_lib_spec
                     box_vertices [0; 0] box_A box_b [0; 0] 1 10 1 3 5 5
                     ltac:(discriminate) eq_refl eq_refl eq_refl
                     ltac:(discriminate))
              ltac:(discriminate) _ _ _ ltac:(vm_compute; reflexivity))
    as (n0 & rest & xs & ys & calls & En & E & Hcount).
  exists xs, ys, calls. split; [exact E |].
  injection En as <- _. exact Hcount.
Defined.



(** * The properties of the binary64 embedding at concrete inputs *)

(** The run on the interval with [eps = 5], [mu = 2] and [t0 = 0.1]: the
    computed test passes three times. *)
Lemma barrier_stage_count_b64_witness :
  exists (x : fvec) (xs : list fvec) (ns : list (list fvec)),
    barrier_method_b64 (L := small_lib_b64) interval_c_b64 interval_A_b64
      interval_b_b64 5 2 false 10 30 10 [0%float] 0.1
    = Ok (x, [0%float] :: xs, ns) /\
    length xs = 3%nat /\ length ns = 3%nat.
Proof.
  apply (proj2 (@barrier_stage_count_b64 small_lib_b64 interval_c_b64
                  interval_A_b64 interval_b_b64 5 2 10 30 10 [0%float] 0.1
                  3%nat)).
  split; [lia |]. split; [| split].
  - intros [| [| [| j]]] Hj; try lia; vm_compute; reflexivity.
  - vm_compute. reflexivity.
  - vm_compute. exact I.
Defined.

(** The two iterations on [49 x²/2 - x] from [0], with [eps = 0]. *)
Lemma newton_iterations_b64_witness :
  exists (x' : fvec) (steps path : list fvec),
    newtons_method_b64 (L := small_lib_b64) quad49_f (fun _ => true)
      quad49_df quad49_ddf 0 30 10 [0%float]
    = Ok (x', steps) /\
    steps = [0%float] :: path /\ length path = 2%nat /\
    newton_stops_b64 (L := small_lib_b64) quad49_df quad49_ddf 0 x'.
Proof.
  destruct (proj1 (@newton_iterations_b64 small_lib_b64 quad49_f
                     (fun _ => true) quad49_df quad49_ddf 0 30 10
                     [0%float] _ _) ltac:(vm_compute; reflexivity))
    as (path & E & _ & _ & _ & Hstop).
  do 3 eexists. split; [vm_compute; reflexivity |].
  split; [exact E |]. split; [| exact Hstop].
  injection E as <-. reflexivity.
Defined.

(** A Hessian that is zero: the solver fails at the first iterate. *)
Lemma solver_failure_surfaces_b64_witness :
  newtons_method_b64 (L := small_lib_b64) (fun _ => 0%float) (fun _ => true)
    (fun _ => [1%float]) (fun _ => [[0%float]]) eps_default_b64 5 1
    [0%float]
  = Raise LinAlgError.
Proof.
  apply (proj2 (proj1 (@solver_failure_surfaces_b64 small_lib_b64
                         (fun _ => 0%float) (fun _ => true)
                         (fun _ => [1%float]) (fun _ => [[0%float]])
                         eps_default_b64 5 1 [0%float]))).
  exists []. split; [simpl; lia |]. split; [exact I | reflexivity].
Defined.
